(** * mt-dhcpstat: DHCP pool statistics from a Mikrotik router

    A shallow embedding of [main.go] and the properties of its
    aggregation pipeline: range parsing, pool sizing, usage counting,
    the per-binding loop and the two output modes, then of the whole
    process: the argument and credential checks, the connection, the
    queries it sends and the ways it can end.

    Go's [int] is taken to be 64 bits wide (the usual amd64/arm64
    targets); its arithmetic wraps around.  Strings are byte strings;
    a [map[string]string] is a finite map whose lookup of a missing key
    gives the empty string. *)

From Stdlib Require Import ZArith Lia List Ascii String Bool.
From stdpp Require Import base option list gmap strings.

Local Open Scope string_scope.
Local Open Scope list_scope.
Local Open Scope Z_scope.

(** ** Go [int] *)

Module GoInt.

Definition maxInt : Z := 9223372036854775807.
Definition minInt : Z := -9223372036854775808.
Definition modulus : Z := 18446744073709551616.

Definition in_range (z : Z) : Prop := minInt <= z <= maxInt.

(** Two's-complement wrap-around of a mathematical integer. *)
Definition wrap (z : Z) : Z := (z - minInt) mod modulus + minInt.

Definition add (a b : Z) : Z := wrap (a + b).
Definition sub (a b : Z) : Z := wrap (a - b).

End GoInt.

(** ** The pieces of Go's standard library the program calls *)

Definition is_digit (c : ascii) : bool :=
  ((48 <=? nat_of_ascii c) && (nat_of_ascii c <=? 57))%nat.

Definition digit_val (c : ascii) : Z := Z.of_nat (nat_of_ascii c) - 48.

Definition digit_char (d : Z) : ascii := ascii_of_nat (48 + Z.to_nat d).

Module strings.

(** [strings.Split(s, sep)] for a separator of one byte, which is how
    the program calls it: the pieces between the occurrences of
    [sep], always at least one piece. *)
Fixpoint Split (s : string) (sep : ascii) : list string :=
  match s with
  | EmptyString => [EmptyString]
  | String c s' =>
      if Ascii.eqb c sep then EmptyString :: Split s' sep
      else match Split s' sep with
           | [] => [String c EmptyString]
           | piece :: pieces => String c piece :: pieces
           end
  end.

End strings.

Module strconv.

Inductive NumError := ErrSyntax | ErrRange.

Definition maxUint64 : Z := 18446744073709551615.
Definition cutoff : Z := 1844674407370955162.  (* maxUint64/10 + 1 *)

(** The digit loop of [ParseUint(s, 10, 64)]: left to right, stopping
    at the first byte that is not a digit (syntax error, value 0) or
    as soon as the value leaves 64 bits (range error, value
    [maxUint64], whatever follows). *)
Fixpoint ParseUint_loop (s : string) (n : Z) : Z * option NumError :=
  match s with
  | EmptyString => (n, None)
  | String c s' =>
      if negb (is_digit c) then (0, Some ErrSyntax)
      else if cutoff <=? n then (maxUint64, Some ErrRange)
      else
        let n1 := n * 10 + digit_val c in
        if maxUint64 <? n1 then (maxUint64, Some ErrRange)
        else ParseUint_loop s' n1
  end.

Definition ParseUint (s : string) : Z * option NumError :=
  match s with
  | EmptyString => (0, Some ErrSyntax)
  | _ => ParseUint_loop s 0
  end.

(** [ParseInt(s, 10, 0)]: an optional sign, then [ParseUint]; a value
    outside [int] is clamped to the nearest bound and reported as a
    range error. *)
Definition ParseInt (s : string) : Z * option NumError :=
  match s with
  | EmptyString => (0, Some ErrSyntax)
  | String c s' =>
      let neg := Ascii.eqb c "-" in
      let body := if Ascii.eqb c "+" || neg then s' else s in
      match ParseUint body with
      | (_, Some ErrSyntax) => (0, Some ErrSyntax)
      | (un, _) =>
          if negb neg && (GoInt.maxInt <? un) then (GoInt.maxInt, Some ErrRange)
          else if neg && (- GoInt.minInt <? un) then (GoInt.minInt, Some ErrRange)
          else (if neg then - un else un, None)
      end
  end.

(** [strconv.Atoi]: the value and the error, as Go returns both. *)
Definition Atoi (s : string) : Z * option NumError := ParseInt s.

(** The decimal digits of a non-negative number, most significant
    first; twenty rounds cover every 64-bit value. *)
Fixpoint formatBits (fuel : nat) (u : Z) (acc : string) : string :=
  match fuel with
  | O => acc
  | S fuel' =>
      if u <? 10 then String (digit_char u) acc
      else formatBits fuel' (u / 10) (String (digit_char (u mod 10)) acc)
  end.

Definition FormatInt (z : Z) : string :=
  if z <? 0 then String "-" (formatBits 20 (- z) EmptyString)
  else formatBits 20 z EmptyString.

End strconv.

Module fmt.

Fixpoint spaces (n : nat) : string :=
  match n with
  | O => EmptyString
  | S n' => String " " (spaces n')
  end.

(** The verb [%Nd]: decimal, right-justified in at least [N] columns. *)
Definition pad_d (width : nat) (z : Z) : string :=
  let s := strconv.FormatInt z in
  spaces (width - String.length s) +:+ s.

End fmt.

Definition TAB : string := String "009" EmptyString.
Definition NL : string := String "010" EmptyString.
Definition DQ : string := String "034" EmptyString.


(** The router API client ([routeros-api-go]) is an external
    collaborator: a client whose state may change with every query, and
    a query that either fails or replies with a list of field maps. *)
Module routeros.

Record Pair := { Key : string; Value : string; Op : string }.
Record Query := { Pairs : list Pair; Proplist : list string }.
Record Reply := { SubPairs : list (gmap string string) }.

Inductive result := Ok (res : Reply) | Fail (err : string).

Class API := {
  Client : Type;
  query : Client -> string -> Query -> Client * result
}.

End routeros.

(** [encoding/json] writes a Go string as a quoted, escaped JSON
    string; the escaping rules are the library's. *)
Class JSONString := json_quote : string -> string.

(** [m[k]] on a [map[string]string]. *)
Definition mapGet (m : gmap string string) (k : string) : string :=
  default "" (m !! k).

(** ** Outcomes and effects *)

Inductive panic := IndexOutOfRange (i len : nat).

Inductive Res (A : Type) : Type :=
| Ret (a : A)
| Exit (code : Z)
| Panic (p : panic).
Arguments Ret {A} a.
Arguments Exit {A} code.
Arguments Panic {A} p.

#[global] Instance Res_ret : MRet Res := fun _ a => Ret a.
#[global] Instance Res_bind : MBind Res := fun _ _ f m =>
  match m with
  | Ret a => f a
  | Exit code => Exit code
  | Panic p => Panic p
  end.

#[global] Instance Res_fmap : FMap Res := fun _ _ f m =>
  match m with
  | Ret a => Ret (f a)
  | Exit code => Exit code
  | Panic p => Panic p
  end.

(** [l[i]] on a slice: the element, or the run-time panic. *)
Definition index {A} (l : list A) (i : nat) : Res A :=
  match l !! i with
  | Some x => Ret x
  | None => Panic (IndexOutOfRange i (length l))
  end.

(** One query as the log remembers it (the log is ghost state: it is
    not part of the program, it records what the program asked). *)
Record QueryEvent := { q_path : string; q_arg : string; q_ok : bool }.

Record World `{routeros.API} := {
  client : routeros.Client;
  stdout : string;
  stderr : string;
  queries : list QueryEvent
}.

Definition M `{routeros.API} (A : Type) : Type := World -> World * Res A.

#[global] Instance M_ret `{routeros.API} : MRet M := fun _ a w => (w, Ret a).
#[global] Instance M_bind `{routeros.API} : MBind M := fun _ _ f m w =>
  match m w with
  | (w', Ret a) => f a w'
  | (w', Exit code) => (w', Exit code)
  | (w', Panic p) => (w', Panic p)
  end.

Definition lift `{routeros.API} {A} (r : Res A) : M A := fun w => (w, r).

Definition result_ok (r : routeros.result) : bool :=
  match r with routeros.Ok _ => true | routeros.Fail _ => false end.

Definition query_arg (q : routeros.Query) : string :=
  match routeros.Pairs q with
  | [] => ""
  | p :: _ => routeros.Value p
  end.

(** The world after a query: the client has moved on and the log has
    one more entry. *)
Definition asked `{routeros.API} (w : World) (c : routeros.Client)
    (path : string) (q : routeros.Query) (r : routeros.result) : World :=
  {| client := c; stdout := stdout w; stderr := stderr w;
     queries := queries w ++
       [{| q_path := path; q_arg := query_arg q; q_ok := result_ok r |}] |}.

(** The world after a write to the standard output, or to the error
    stream. *)
Definition printed `{routeros.API} (w : World) (s : string) : World :=
  {| client := client w; stdout := stdout w +:+ s; stderr := stderr w;
     queries := queries w |}.

Definition complained `{routeros.API} (w : World) (s : string) : World :=
  {| client := client w; stdout := stdout w; stderr := stderr w +:+ s;
     queries := queries w |}.

(** [r.Query(path, q)] *)
Definition Query `{routeros.API} (path : string) (q : routeros.Query)
  : M routeros.result := fun w =>
  let '(c, r) := routeros.query (client w) path q in
  (asked w c path q r, Ret r).

Definition write_stdout `{routeros.API} (s : string) : M unit := fun w =>
  (printed w s, Ret tt).

Definition write_stderr `{routeros.API} (s : string) : M unit := fun w =>
  (complained w s, Ret tt).

Definition os_Exit `{routeros.API} {A} (code : Z) : M A := fun w => (w, Exit code).

(** ** The program *)

Record PoolStat := { Interface : string; Used : Z; Size : Z }.

Record IPRange := { Min : string; Max : string }.

Section Program.
Context {api : routeros.API} {json : JSONString}.

Definition marshal_jsError (msg : string) : string :=
  "{" +:+ DQ +:+ "Error" +:+ DQ +:+ ":" +:+ json_quote msg +:+ "}".

(** [jserror]: the error object goes to the error stream and the
    process exits with status 1. *)
Definition jserror (msg : string) : M unit :=
  write_stderr (marshal_jsError msg);;
  os_Exit 1.

Definition usedQuery (pool : string) : routeros.Query :=
  {| routeros.Pairs := [{| routeros.Key := "pool"; routeros.Value := pool;
                           routeros.Op := "=" |}];
     routeros.Proplist := [".id,address"] |}.

(** [getPoolUsed]: the addresses assigned from a pool. *)
Definition getPoolUsed (pool : string) : M (list string * option string) :=
  let addrs := [] in
  r ← Query "/ip/pool/used/print" (usedQuery pool);
  match r with
  | routeros.Fail err => mret (addrs, Some err)
  | routeros.Ok res =>
      mret (addrs ++ map (fun s => mapGet s "address") (routeros.SubPairs res),
            None)
  end.

Definition poolQuery (pool : string) : routeros.Query :=
  {| routeros.Pairs := [{| routeros.Key := "name"; routeros.Value := pool;
                           routeros.Op := "=" |}];
     routeros.Proplist := [".id,ranges"] |}.

(** The loop of [getPoolRange] over the comma-separated pieces. *)
Fixpoint rangeLoop (ps : list string) (ranges : list IPRange)
  : Res (list IPRange) :=
  match ps with
  | [] => Ret ranges
  | p :: ps' =>
      let rng := strings.Split p "-" in
      min ← index rng 0;
      max ← index rng 1;
      rangeLoop ps' (ranges ++ [{| Min := min; Max := max |}])
  end.

(** [getPoolRange]: the ranges of a named pool. *)
Definition getPoolRange (pool : string) : M (list IPRange * option string) :=
  let ranges := [] in
  r ← Query "/ip/pool/print" (poolQuery pool);
  match r with
  | routeros.Fail err => mret (ranges, Some err)
  | routeros.Ok res =>
      match routeros.SubPairs res with
      | [] => mret (ranges, None)
      | sp :: _ =>
          if decide (mapGet sp "ranges" = "") then mret (ranges, None)
          else
            ranges ← lift (rangeLoop (strings.Split (mapGet sp "ranges") ",")
                                     ranges);
            mret (ranges, None)
      end
  end.

(** The sizing loop of [main] (lines 187 to 195). *)
Fixpoint sizeLoop (pool : list IPRange) (size : Z) : Res Z :=
  match pool with
  | [] => Ret size
  | l :: pool' =>
      let minparts := strings.Split (Min l) "." in
      m ← index minparts 3;
      let min := fst (strconv.Atoi m) in
      let maxparts := strings.Split (Max l) "." in
      m ← index maxparts 3;
      let max := fst (strconv.Atoi m) in
      sizeLoop pool' (GoInt.add size (GoInt.sub max min))
  end.

Definition poolSize (pool : list IPRange) : Res Z := sizeLoop pool 0.

(** One line of the text table: ["%s\t%12d\t%4d\n"]. *)
Definition text_line (p : PoolStat) : string :=
  Interface p +:+ TAB +:+ fmt.pad_d 12 (Used p) +:+ TAB +:+
  fmt.pad_d 4 (GoInt.sub (Size p) (Used p)) +:+ NL.

Definition text_header : string :=
  "Interface" +:+ TAB +:+ "Used" +:+ TAB +:+ "Free" +:+ NL.

(** The body of the loop over the DHCP servers; [continue] is the
    early return of the unchanged slice. *)
Definition binding (js : bool) (pair : gmap string string)
    (pools : list PoolStat) : M (list PoolStat) :=
  let iface := mapGet pair "interface" in
  let poolName := mapGet pair "address-pool" in
  if decide (poolName = "") then mret pools
  else
    '(pool, err) ← getPoolRange poolName;
    match err with
    | Some err =>
        (if js then jserror ("Error fetching pool information for pool " +:+ poolName)
         else mret tt);;
        write_stderr ("Error fetching pool information: " +:+ err +:+ NL);;
        os_Exit 1
    | None =>
        size ← lift (poolSize pool);
        '(used, err) ← getPoolUsed poolName;
        match err with
        | Some err =>
            (if js then jserror ("Error fetching pool usage for pool " +:+ poolName)
             else mret tt);;
            write_stderr ("Error fetching pool usage for pool " +:+ poolName
                          +:+ ": " +:+ err +:+ NL);;
            os_Exit 1
        | None =>
            let p := {| Interface := iface;
                        Used := Z.of_nat (length used);
                        Size := size |} in
            (if js then mret tt else write_stdout (text_line p));;
            mret (pools ++ [p])
        end
    end.

Fixpoint forEach (pairs : list (gmap string string))
    (body : gmap string string -> list PoolStat -> M (list PoolStat))
    (pools : list PoolStat) : M (list PoolStat) :=
  match pairs with
  | [] => mret pools
  | pr :: pairs' => pools' ← body pr pools; forEach pairs' body pools'
  end.

Definition marshal_PoolStat (p : PoolStat) : string :=
  "{" +:+ DQ +:+ "Interface" +:+ DQ +:+ ":" +:+ json_quote (Interface p) +:+
  "," +:+ DQ +:+ "Used" +:+ DQ +:+ ":" +:+ strconv.FormatInt (Used p) +:+
  "," +:+ DQ +:+ "Size" +:+ DQ +:+ ":" +:+ strconv.FormatInt (Size p) +:+ "}".

Fixpoint join_comma (l : list string) : string :=
  match l with
  | [] => ""
  | [s] => s
  | s :: l' => s +:+ "," +:+ join_comma l'
  end.

(** [json.Marshal(pools)].  The slice starts out nil and only grows
    by [append], so in this program it is empty exactly when it is
    nil, and a nil slice is written as [null]. *)
Definition marshal_pools (pools : list PoolStat) : string :=
  match pools with
  | [] => "null"
  | _ => "[" +:+ join_comma (map marshal_PoolStat pools) +:+ "]"
  end.

Definition serversQuery : routeros.Query :=
  {| routeros.Pairs := [{| routeros.Key := "disabled"; routeros.Value := "no";
                           routeros.Op := "=" |}];
     routeros.Proplist := [".id,address-pool,interface"] |}.

(** The aggregation of [main]: the list of enabled DHCP servers, the
    header in text mode, and the loop (lines 149 to 213). *)
Definition aggregate (js : bool) : M (list PoolStat) :=
  r ← Query "/ip/dhcp-server/getall" serversQuery;
  match r with
  | routeros.Fail err =>
      (if js then jserror "Error fetching list of dhcp interfaces from router"
       else mret tt);;
      write_stderr ("Error fetching list of dhcp interfaces: " +:+ err +:+ NL);;
      os_Exit 1
  | routeros.Ok res =>
      (if js then mret tt else write_stdout text_header);;
      forEach (routeros.SubPairs res) (binding js) []
  end.

(** [main] once the connection to the router is up (from line 149). *)
Definition main (js : bool) : M unit :=
  pools ← aggregate js;
  if js then write_stdout (marshal_pools pools) else mret tt.

End Program.

(** ** Before the connection

    Until the client exists the program only writes to the error
    stream, so that is the whole state. *)

(** [routeros.New(address)] and [r.Connect(user, password)]: external,
    like the queries. *)
Class Dialer `{routeros.API} := {
  routeros_New : string -> routeros.Client + string;
  routeros_Connect :
    routeros.Client -> string -> string -> routeros.Client * option string
}.

Definition Early (A : Type) : Type := string -> string * Res A.

#[global] Instance Early_ret : MRet Early := fun _ a e => (e, Ret a).
#[global] Instance Early_bind : MBind Early := fun _ _ f m e =>
  match m e with
  | (e', Ret a) => f a e'
  | (e', Exit code) => (e', Exit code)
  | (e', Panic p) => (e', Panic p)
  end.

Definition early_stderr (s : string) : Early unit := fun e => (e +:+ s, Ret tt).

Definition early_Exit {A} (code : Z) : Early A := fun e => (e, Exit code).

(** What the process leaves when it ends. *)
Record Outcome := {
  out_stdout : string;
  out_stderr : string;
  out_queries : list QueryEvent;
  out_status : Res unit
}.

Section Start.
Context {api : routeros.API} {json : JSONString} {dial : Dialer}.

(** [jserror], called before the connection. *)
Definition early_jserror (msg : string) : Early unit :=
  early_stderr (marshal_jsError msg);;
  early_Exit 1.

(** [usage]: [prog] is [os.Args[0]], and [defaults] is what
    [flag.PrintDefaults] writes for the two flags. *)
Definition usage (prog defaults : string) : Early unit :=
  early_stderr ("usage: " +:+ prog +:+ " [options] router-address" +:+ NL);;
  early_stderr ("Login credentials must be set as environment variables" +:+ NL);;
  early_stderr ("Username in MT_USERNAME" +:+ NL);;
  early_stderr ("Password in MT_PASSWORD" +:+ NL);;
  early_stderr defaults;;
  early_Exit 2.

(** [main] up to the connection (lines 110 to 147): [js] and [port]
    are the flags as [flag.Parse] left them, [args] the remaining
    arguments, [username] and [password] the two environment
    variables. *)
Definition connect (js : bool) (port : Z) (prog defaults : string)
    (args : list string) (username password : string)
  : Early routeros.Client :=
  (if decide (length args <> 1%nat) then usage prog defaults else mret tt);;
  let host := nth 0 args "" in
  (if decide (username = "") then
     (if js then early_jserror "MT_USERNAME is empty or not set" else mret tt);;
     early_stderr ("Error: MT_USERNAME is empty or not set" +:+ NL);;
     usage prog defaults
   else mret tt);;
  let hp := host +:+ ":" +:+ strconv.FormatInt port in
  match routeros_New hp with
  | inr err =>
      (if js then early_jserror "Invalid address for router" else mret tt);;
      early_stderr ("Invalid address for router: " +:+ err +:+ NL);;
      early_Exit 1
  | inl r =>
      let '(r, err) := routeros_Connect r username password in
      match err with
      | Some err =>
          (if js then early_jserror "Error connecting to router" else mret tt);;
          early_stderr ("Error connecting to router: " +:+ err +:+ NL);;
          early_Exit 1
      | None => mret r
      end
  end.

(** The whole of [main]: the connection, then the rest on a fresh
    world. *)
Definition process (js : bool) (port : Z) (prog defaults : string)
    (args : list string) (username password : string) : Outcome :=
  match connect js port prog defaults args username password "" with
  | (e, Ret r) =>
      let '(w, status) :=
        main js {| client := r; stdout := ""; stderr := e; queries := [] |} in
      {| out_stdout := stdout w; out_stderr := stderr w;
         out_queries := queries w; out_status := status |}
  | (e, Exit code) =>
      {| out_stdout := ""; out_stderr := e; out_queries := [];
         out_status := Exit code |}
  | (e, Panic p) =>
      {| out_stdout := ""; out_stderr := e; out_queries := [];
         out_status := Panic p |}
  end.


(** The text of [usage]. *)
Definition usage_text (prog defaults : string) : string :=
  "usage: " +:+ prog +:+ " [options] router-address" +:+ NL +:+
  "Login credentials must be set as environment variables" +:+ NL +:+
  "Username in MT_USERNAME" +:+ NL +:+
  "Password in MT_PASSWORD" +:+ NL +:+ defaults.

(** The address dialled and the credentials given make a connection. *)
Definition connected (port : Z) (args : list string)
    (username password : string) (r : routeros.Client) : Prop :=
  exists host r0,
    args = [host] /\ username <> "" /\
    routeros_New (host +:+ ":" +:+ strconv.FormatInt port) = inl r0 /\
    routeros_Connect r0 username password = (r, None).

End Start.

(** ** Vocabulary of the properties *)

(** Lines 77 to 90 of [getPoolRange], on the range-list field of the
    record it looks at. *)
Definition fieldRanges (field : string) : Res (list IPRange) :=
  if decide (field = "") then Ret []
  else rangeLoop (strings.Split field ",") [].

(** Lines 70 to 90 of [getPoolRange], on a successful reply. *)
Definition replyRanges (res : routeros.Reply) : Res (list IPRange) :=
  match routeros.SubPairs res with
  | [] => Ret []
  | sp :: _ => fieldRanges (mapGet sp "ranges")
  end.

(** The record [main] appends for a binding, given the size it
    computed and the reply to the usage query. *)
Definition record_of (pr : gmap string string) (size : Z)
    (res : routeros.Reply) : PoolStat :=
  {| Interface := mapGet pr "interface";
     Used := Z.of_nat (length (routeros.SubPairs res));
     Size := size |}.

(** The capacity [main] computes for a pool with that range-list field. *)
Definition fieldCapacity (field : string) : Res Z :=
  fieldRanges field ≫= poolSize.

(** An IPv4 address and a range of addresses, as the router holds them
    before it prints them. *)
Record Addr := { o1 : Z; o2 : Z; o3 : Z; o4 : Z }.
Record Segment := { low : Addr; high : Addr }.

Definition octet_ok (o : Z) : Prop := 0 <= o <= 255.

Definition addr_ok (a : Addr) : Prop :=
  octet_ok (o1 a) /\ octet_ok (o2 a) /\ octet_ok (o3 a) /\ octet_ok (o4 a).

Definition segment_ok (s : Segment) : Prop := addr_ok (low s) /\ addr_ok (high s).

Definition render_addr (a : Addr) : string :=
  strconv.FormatInt (o1 a) +:+ "." +:+ strconv.FormatInt (o2 a) +:+ "." +:+
  strconv.FormatInt (o3 a) +:+ "." +:+ strconv.FormatInt (o4 a).

Definition render_segment (s : Segment) : string :=
  render_addr (low s) +:+ "-" +:+ render_addr (high s).

(** A valid range field is what the router prints for a list of
    ranges: dotted quads, low-high, separated by commas. *)
Definition render_field (segs : list Segment) : string :=
  join_comma (map render_segment segs).

(** The sum over the segments of last octet of high minus last octet
    of low. *)
Definition segments_sum (segs : list Segment) : Z :=
  foldr (fun s acc => (o4 (high s) - o4 (low s)) + acc) 0 segs.

(** The range [getPoolRange] makes of one comma-separated piece that
    has a dash. *)
Definition piece_range (p : string) : IPRange :=
  {| Min := nth 0 (strings.Split p "-") "";
     Max := nth 1 (strings.Split p "-") "" |}.

(** What the two loops read in one comma-separated piece: the fourth
    dot component of each of the first two dash components. *)
Definition piece_side (p : string) (i : nat) : string :=
  nth 3 (strings.Split (nth i (strings.Split p "-") "") ".") "".

Definition piece_delta (p : string) : Z :=
  fst (strconv.Atoi (piece_side p 1)) - fst (strconv.Atoi (piece_side p 0)).

Definition pieces_sum (ps : list string) : Z :=
  foldr (fun p acc => piece_delta p + acc) 0 ps.

(** A piece both loops get through: a dash, and four dot components on
    each of the first two sides. *)
Definition piece_shaped (p : string) : Prop :=
  exists lo hi rest,
    strings.Split p "-" = lo :: hi :: rest /\
    (4 <= length (strings.Split lo "."))%nat /\
    (4 <= length (strings.Split hi "."))%nat.

Fixpoint occurs (c : ascii) (s : string) : bool :=
  match s with
  | EmptyString => false
  | String c' s' => Ascii.eqb c' c || occurs c s'
  end.

(** Malformed, in the words of the specification: a piece without the
    dash, or with an octet that [Atoi] rejects. *)
Definition octet_unparseable (addr : string) : bool :=
  existsb (fun o => bool_decide (snd (strconv.Atoi o) <> None))
          (strings.Split addr ".").

Definition piece_malformed (p : string) : bool :=
  match strings.Split p "-" with
  | lo :: hi :: _ => octet_unparseable lo || octet_unparseable hi
  | _ => true
  end.

Definition field_malformed (field : string) : bool :=
  existsb piece_malformed (strings.Split field ",").

Definition failed_queries `{routeros.API} (w : World) : nat :=
  length (filter (fun e => q_ok e = false) (queries w)).

Definition has_pool (b : gmap string string) : Prop :=
  mapGet b "address-pool" <> "".

(** The interfaces a run reports, in order: those of the bindings with
    a pool name. *)
Definition eligible (bindings : list (gmap string string)) : list string :=
  map (fun b => mapGet b "interface") (filter has_pool bindings).

Definition text_lines (recs : list PoolStat) : string :=
  foldr (fun p s => text_line p +:+ s) "" recs.



(** The diagnostics of the three fatal errors, in either mode. *)
Definition servers_diag `{JSONString} (js : bool) (err : string) : string :=
  if js then marshal_jsError "Error fetching list of dhcp interfaces from router"
  else "Error fetching list of dhcp interfaces: " +:+ err +:+ NL.

Definition pool_diag `{JSONString} (js : bool) (poolName err : string) : string :=
  if js then marshal_jsError ("Error fetching pool information for pool " +:+ poolName)
  else "Error fetching pool information: " +:+ err +:+ NL.

Definition used_diag `{JSONString} (js : bool) (poolName err : string) : string :=
  if js then marshal_jsError ("Error fetching pool usage for pool " +:+ poolName)
  else "Error fetching pool usage for pool " +:+ poolName +:+ ": " +:+ err +:+ NL.

Inductive diagnostic `{JSONString} (js : bool) : string -> Prop :=
| diag_servers err : diagnostic js (servers_diag js err)
| diag_pool poolName err : diagnostic js (pool_diag js poolName err)
| diag_used poolName err : diagnostic js (used_diag js poolName err).

(** ** A scripted router, for concrete runs

    The client holds the answers still to come; every query takes the
    next one, and an exhausted script fails. *)
Definition scripted : routeros.API :=
  {| routeros.Client := list routeros.result;
     routeros.query := fun c _ _ =>
       match c with
       | [] => ([], routeros.Fail "EOF")
       | r :: c' => (c', r)
       end |}.

(** A stand-in for the JSON string encoder that only adds the quotes. *)
Definition quote_only : JSONString := fun s => DQ +:+ s +:+ DQ.

Definition record (fields : list (string * string)) : gmap string string :=
  list_to_map fields.

Definition reply (records : list (gmap string string)) : routeros.result :=
  routeros.Ok {| routeros.SubPairs := records |}.

Definition boot (script : list routeros.result) : @World scripted :=
  {| client := script : @routeros.Client scripted;
     stdout := ""; stderr := ""; queries := [] |}.

(** Two DHCP servers on [office-pool] (capacity 10); the second usage
    lookup fails. *)
Definition script_fail_second : list routeros.result :=
  [ reply [record [("interface", "ether1"); ("address-pool", "office-pool")];
           record [("interface", "ether2"); ("address-pool", "office-pool")]];
    reply [record [("ranges", "10.0.0.10-10.0.0.20")]];
    reply [record [("address", "10.0.0.11")]; record [("address", "10.0.0.12")];
           record [("address", "10.0.0.13")]];
    reply [record [("ranges", "10.0.0.10-10.0.0.20")]];
    routeros.Fail "timeout" ].

(** One server with a pool, one without; three leases, one of them
    reported twice. *)
Definition script_office : list routeros.result :=
  [ reply [record [("interface", "ether1"); ("address-pool", "office-pool")];
           record [("interface", "ether2")]];
    reply [record [("ranges", "10.0.0.10-10.0.0.20")];
           record [("ranges", "10.0.0.100-10.0.0.200")]];
    reply [record [("address", "10.0.0.11")]; record [("address", "10.0.0.12")];
           record [("address", "10.0.0.12")]] ].


(** A dialer for the scripted router: any address but the empty host
    is accepted, and the password must be [secret] or empty. *)
Definition scripted_dial (script : list routeros.result) : @Dialer scripted :=
  {| routeros_New := fun hp =>
       if decide (hp = ":8728") then inr "missing address"
       else inl (script : @routeros.Client scripted);
     routeros_Connect := fun r _ password =>
       if decide (password = "secret" \/ password = "") then (r, None)
       else (r, Some "cannot log in") |}.

(** The two ranges of the scenarios, and answers of the router that
    carry them. *)
Definition range_10_20 : Segment :=
  {| low := {| o1 := 10; o2 := 0; o3 := 0; o4 := 10 |};
     high := {| o1 := 10; o2 := 0; o3 := 0; o4 := 20 |} |}.

Definition range_30_40 : Segment :=
  {| low := {| o1 := 10; o2 := 0; o3 := 0; o4 := 30 |};
     high := {| o1 := 10; o2 := 0; o3 := 0; o4 := 40 |} |}.

Definition ether1_office : gmap string string :=
  record [("interface", "ether1"); ("address-pool", "office-pool")].



(** No server has a pool. *)
Definition script_no_pool : list routeros.result :=
  [ reply [record [("interface", "ether1")];
           record [("interface", "ether2"); ("address-pool", "")]] ].

(** A pool whose range list lacks the dash. *)
Definition script_no_dash : list routeros.result :=
  [ reply [record [("ranges", "10.0.0.10")]] ].

(** ** The log of a run that goes well *)

Definition pool_asked (name : string) : QueryEvent :=
  {| q_path := "/ip/pool/print"; q_arg := name; q_ok := true |}.

Definition used_asked (name : string) : QueryEvent :=
  {| q_path := "/ip/pool/used/print"; q_arg := name; q_ok := true |}.

Definition servers_asked : QueryEvent :=
  {| q_path := "/ip/dhcp-server/getall"; q_arg := "no"; q_ok := true |}.

(** The two queries of a binding with a pool; none for the others. *)
Definition binding_queries (b : gmap string string) : list QueryEvent :=
  if decide (has_pool b)
  then [pool_asked (mapGet b "address-pool"); used_asked (mapGet b "address-pool")]
  else [].

Definition expected_queries (bindings : list (gmap string string))
  : list QueryEvent :=
  servers_asked :: flat_map binding_queries bindings.

(** A range the sizing loop gets through: four dot components on
    both ends. *)
Definition quads (l : IPRange) : Prop :=
  (4 <= length (strings.Split (Min l) "."))%nat /\
  (4 <= length (strings.Split (Max l) "."))%nat.

(** Two worlds with the same router behind them: the client in the
    same state and the same questions asked so far. *)
Definition same_router `{routeros.API} (w1 w2 : World) : Prop :=
  client w1 = client w2 /\ queries w1 = queries w2.

(** * Properties *)

(** ** The library pieces on examples *)

Example Split_ex1 : strings.Split "10.0.0.10-10.0.0.20" "-" = ["10.0.0.10"; "10.0.0.20"].
Proof. reflexivity. Qed.
Example Split_ex2 : strings.Split "" "," = [""].
Proof. reflexivity. Qed.
Example Split_ex3 : strings.Split "a,,b," "," = ["a"; ""; "b"; ""].
Proof. reflexivity. Qed.
Example Atoi_ex1 : strconv.Atoi "20" = (20, None).
Proof. reflexivity. Qed.
Example Atoi_ex2 : strconv.Atoi "x" = (0, Some strconv.ErrSyntax).
Proof. reflexivity. Qed.
Example Atoi_ex3 :
  strconv.Atoi "99999999999999999999" = (GoInt.maxInt, Some strconv.ErrRange).
Proof. reflexivity. Qed.
Example Atoi_ex4 : strconv.Atoi "-9223372036854775808" = (GoInt.minInt, None).
Proof. reflexivity. Qed.
Example pad_ex1 : fmt.pad_d 4 (-7) = "  -7".
Proof. reflexivity. Qed.
Example pad_ex2 : fmt.pad_d 4 123456 = "123456".
Proof. reflexivity. Qed.

(** ** Strings *)

Lemma append_cons c (s t : string) : String c s +:+ t = String c (s +:+ t).
Proof. reflexivity. Qed.

Lemma append_nil_r (s : string) : s +:+ "" = s.
Proof. induction s as [|c s IH]; [reflexivity | rewrite append_cons, IH; reflexivity]. Qed.

Lemma append_assoc (s1 s2 s3 : string) : (s1 +:+ s2) +:+ s3 = s1 +:+ (s2 +:+ s3).
Proof.
  induction s1 as [|c s1 IH]; [reflexivity | rewrite !append_cons, IH; reflexivity].
Qed.

(** ** Go [int] arithmetic *)

Lemma wrap_in_range z : GoInt.in_range (GoInt.wrap z).
Proof.
  unfold GoInt.in_range, GoInt.wrap, GoInt.minInt, GoInt.maxInt, GoInt.modulus.
  pose proof (Z.mod_pos_bound (z - -9223372036854775808) 18446744073709551616).
  lia.
Qed.

Lemma wrap_id z : GoInt.in_range z -> GoInt.wrap z = z.
Proof.
  unfold GoInt.in_range, GoInt.wrap, GoInt.minInt, GoInt.maxInt, GoInt.modulus.
  intros Hz. rewrite Z.mod_small; lia.
Qed.

Lemma wrap_add_r a b : GoInt.wrap (a + GoInt.wrap b) = GoInt.wrap (a + b).
Proof.
  unfold GoInt.wrap, GoInt.minInt, GoInt.modulus.
  f_equal.
  replace (a + ((b - -9223372036854775808) mod 18446744073709551616
                + -9223372036854775808) - -9223372036854775808)
    with (a + (b - -9223372036854775808) mod 18446744073709551616) by lia.
  rewrite Z.add_mod_idemp_r by lia. f_equal. lia.
Qed.

Lemma wrap_add_l a b : GoInt.wrap (GoInt.wrap a + b) = GoInt.wrap (a + b).
Proof. rewrite (Z.add_comm (GoInt.wrap a)), wrap_add_r. f_equal. lia. Qed.

(** ** Decimal digits *)

Lemma digit_char_ok d :
  0 <= d <= 9 -> is_digit (digit_char d) = true /\ digit_val (digit_char d) = d.
Proof.
  intros Hd.
  assert (E : d = 0 \/ d = 1 \/ d = 2 \/ d = 3 \/ d = 4 \/ d = 5 \/ d = 6 \/
              d = 7 \/ d = 8 \/ d = 9) by lia.
  repeat (destruct E as [->|E]; [split; reflexivity|]). subst d. split; reflexivity.
Qed.

Lemma ParseUint_loop_cons c s n :
  strconv.ParseUint_loop (String c s) n =
    if negb (is_digit c) then (0, Some strconv.ErrSyntax)
    else if strconv.cutoff <=? n then (strconv.maxUint64, Some strconv.ErrRange)
    else if strconv.maxUint64 <? n * 10 + digit_val c
         then (strconv.maxUint64, Some strconv.ErrRange)
         else strconv.ParseUint_loop s (n * 10 + digit_val c).
Proof. reflexivity. Qed.

Lemma ParseUint_loop_digit d s n :
  0 <= d <= 9 -> 0 <= n -> n * 10 + d <= strconv.maxUint64 ->
  strconv.ParseUint_loop (String (digit_char d) s) n
  = strconv.ParseUint_loop s (n * 10 + d).
Proof.
  intros Hd Hn Hmax. rewrite ParseUint_loop_cons.
  destruct (digit_char_ok d Hd) as [-> ->]. simpl negb. cbv iota.
  unfold strconv.cutoff, strconv.maxUint64 in *.
  destruct (Z.leb_spec 1844674407370955162 n); [lia|].
  destruct (Z.ltb_spec 18446744073709551615 (n * 10 + d)); [lia|reflexivity].
Qed.

Lemma formatBits_S fuel u acc :
  strconv.formatBits (S fuel) u acc =
    if u <? 10 then String (digit_char u) acc
    else strconv.formatBits fuel (u / 10) (String (digit_char (u mod 10)) acc).
Proof. reflexivity. Qed.

Lemma ParseUint_loop_formatBits fuel : forall u acc,
  0 <= u < 10 ^ Z.of_nat fuel -> u <= strconv.maxUint64 ->
  strconv.ParseUint_loop (strconv.formatBits fuel u acc) 0
  = strconv.ParseUint_loop acc u.
Proof.
  induction fuel as [|fuel IH]; intros u acc Hu Hmax.
  - simpl in Hu. assert (u = 0) as -> by lia. reflexivity.
  - rewrite Nat2Z.inj_succ, Z.pow_succ_r in Hu by lia.
    rewrite formatBits_S. destruct (Z.ltb_spec u 10) as [Hlt|Hge].
    + rewrite ParseUint_loop_digit by lia. f_equal.
    + pose proof (Z.div_mod u 10 ltac:(lia)) as Hdm.
      pose proof (Z.mod_pos_bound u 10 ltac:(lia)) as Hm.
      rewrite IH by (unfold strconv.maxUint64 in *; lia).
      rewrite ParseUint_loop_digit by (unfold strconv.maxUint64 in *; lia).
      f_equal. lia.
Qed.

Lemma formatBits_head fuel : forall u acc,
  0 <= u ->
  exists c s, strconv.formatBits (S fuel) u acc = String c s /\ is_digit c = true.
Proof.
  induction fuel as [|fuel IH]; intros u acc Hu; rewrite formatBits_S;
    destruct (Z.ltb_spec u 10) as [Hlt|Hge].
  - eexists _, _. split; [reflexivity|]. apply digit_char_ok. lia.
  - eexists _, _. split; [reflexivity|]. apply digit_char_ok.
    pose proof (Z.mod_pos_bound u 10 ltac:(lia)). lia.
  - eexists _, _. split; [reflexivity|]. apply digit_char_ok. lia.
  - apply IH. apply Z.div_pos; lia.
Qed.

Lemma ParseUint_formatBits u :
  0 <= u <= strconv.maxUint64 ->
  strconv.ParseUint (strconv.formatBits 20 u "") = (u, None).
Proof.
  intros Hu. destruct (formatBits_head 19 u "" ltac:(lia)) as (c & s & E & _).
  rewrite E. change (strconv.ParseUint (String c s)) with (strconv.ParseUint_loop (String c s) 0).
  rewrite <- E. rewrite ParseUint_loop_formatBits; [reflexivity| |lia].
  unfold strconv.maxUint64 in Hu. change (10 ^ Z.of_nat 20) with 100000000000000000000. lia.
Qed.

Lemma digit_not_sign c : is_digit c = true -> Ascii.eqb c "+" = false /\ Ascii.eqb c "-" = false.
Proof.
  intros Hc. split.
  - destruct (Ascii.eqb_spec c "+") as [->|]; [discriminate|reflexivity].
  - destruct (Ascii.eqb_spec c "-") as [->|]; [discriminate|reflexivity].
Qed.

(** [Atoi] reads back what [FormatInt] writes. *)
Lemma Atoi_FormatInt z :
  GoInt.in_range z -> strconv.Atoi (strconv.FormatInt z) = (z, None).
Proof.
  unfold GoInt.in_range, GoInt.minInt, GoInt.maxInt. intros Hz.
  unfold strconv.Atoi, strconv.FormatInt.
  destruct (Z.ltb_spec z 0) as [Hneg|Hpos].
  - unfold strconv.ParseInt.
    change (Ascii.eqb "-" "-") with true. change (Ascii.eqb "-" "+" || true) with true.
    cbv iota. rewrite ParseUint_formatBits by (unfold strconv.maxUint64; lia).
    unfold GoInt.minInt, GoInt.maxInt. simpl negb. simpl andb.
    destruct (Z.ltb_spec (- -9223372036854775808) (- z)); [lia|].
    f_equal. lia.
  - pose proof (ParseUint_formatBits z ltac:(unfold strconv.maxUint64; lia)) as HP.
    destruct (formatBits_head 19 z "" Hpos) as (c & s & E & Hc).
    rewrite E in *. unfold strconv.ParseInt.
    destruct (digit_not_sign c Hc) as [-> ->]. simpl orb. cbv iota.
    rewrite HP. unfold GoInt.maxInt. simpl negb. simpl andb.
    destruct (Z.ltb_spec 9223372036854775807 z); [lia|reflexivity].
Qed.

(** ** Occurrences of a byte, and [Split] *)

Lemma occurs_cons c c' s : occurs c (String c' s) = Ascii.eqb c' c || occurs c s.
Proof. reflexivity. Qed.

Lemma occurs_app c s t : occurs c (s +:+ t) = occurs c s || occurs c t.
Proof.
  induction s as [|c' s IH]; [reflexivity|].
  rewrite append_cons, !occurs_cons, IH. apply orb_assoc.
Qed.

Lemma occurs_formatBits c fuel : forall u acc,
  is_digit c = false -> 0 <= u ->
  occurs c (strconv.formatBits fuel u acc) = occurs c acc.
Proof.
  intros u acc Hc. revert u acc.
  assert (D : forall d, 0 <= d <= 9 -> Ascii.eqb (digit_char d) c = false).
  { intros d Hd. destruct (Ascii.eqb_spec (digit_char d) c) as [<-|]; [|reflexivity].
    destruct (digit_char_ok d Hd) as [E _]. congruence. }
  induction fuel as [|fuel IH]; intros u acc Hu; [reflexivity|].
  rewrite formatBits_S. destruct (Z.ltb_spec u 10) as [Hlt|Hge].
  - rewrite occurs_cons, D by lia. reflexivity.
  - rewrite IH by (apply Z.div_pos; lia). rewrite occurs_cons, D; [reflexivity|].
    pose proof (Z.mod_pos_bound u 10 ltac:(lia)). lia.
Qed.

Lemma occurs_FormatInt c z :
  is_digit c = false -> 0 <= z -> occurs c (strconv.FormatInt z) = false.
Proof.
  intros Hc Hz. unfold strconv.FormatInt.
  destruct (Z.ltb_spec z 0); [lia|]. apply occurs_formatBits; assumption.
Qed.

Lemma Split_cons c s sep :
  strings.Split (String c s) sep =
    if Ascii.eqb c sep then "" :: strings.Split s sep
    else match strings.Split s sep with
         | [] => [String c ""]
         | piece :: pieces => String c piece :: pieces
         end.
Proof. reflexivity. Qed.

Lemma Split_whole s sep : occurs sep s = false -> strings.Split s sep = [s].
Proof.
  induction s as [|c s IH]; [reflexivity|]. rewrite occurs_cons.
  intros [Hc Hs]%orb_false_elim. rewrite Split_cons, Hc, IH by assumption. reflexivity.
Qed.

Lemma Split_app s t sep :
  occurs sep s = false ->
  strings.Split (s +:+ String sep t) sep = s :: strings.Split t sep.
Proof.
  induction s as [|c s IH].
  - intros _. change ("" +:+ String sep t) with (String sep t).
    rewrite Split_cons, Ascii.eqb_refl. reflexivity.
  - rewrite occurs_cons. intros [Hc Hs]%orb_false_elim.
    rewrite append_cons, Split_cons, Hc, IH by assumption. reflexivity.
Qed.

Lemma Split_app1 s t sep :
  occurs sep s = false ->
  strings.Split (s +:+ String sep "" +:+ t) sep = s :: strings.Split t sep.
Proof. apply Split_app. Qed.

Lemma Split_length s sep : (1 <= length (strings.Split s sep))%nat.
Proof.
  induction s as [|c s IH]; [simpl; lia|]. rewrite Split_cons.
  destruct (Ascii.eqb c sep); [simpl; lia|].
  destruct (strings.Split s sep); simpl in *; lia.
Qed.

(** ** What the router prints *)

Lemma occurs_render_addr c a :
  is_digit c = false -> c <> "."%char -> addr_ok a -> occurs c (render_addr a) = false.
Proof.
  intros Hc Hdot (H1 & H2 & H3 & H4). unfold render_addr, octet_ok in *.
  assert (Ascii.eqb "." c = false) as Hd.
  { destruct (Ascii.eqb_spec "." c); [congruence|reflexivity]. }
  rewrite !occurs_app, !occurs_FormatInt by (assumption || lia).
  rewrite !occurs_cons, Hd. reflexivity.
Qed.

Lemma Split_render_addr a :
  addr_ok a ->
  strings.Split (render_addr a) "." =
    [strconv.FormatInt (o1 a); strconv.FormatInt (o2 a);
     strconv.FormatInt (o3 a); strconv.FormatInt (o4 a)].
Proof.
  intros (H1 & H2 & H3 & H4). unfold render_addr, octet_ok in *.
  rewrite !Split_app1 by (apply occurs_FormatInt; [reflexivity|lia]).
  rewrite Split_whole by (apply occurs_FormatInt; [reflexivity|lia]).
  reflexivity.
Qed.

Lemma Split_render_segment s :
  segment_ok s ->
  strings.Split (render_segment s) "-" = [render_addr (low s); render_addr (high s)].
Proof.
  intros [Hl Hh]. unfold render_segment.
  rewrite Split_app1 by (apply occurs_render_addr; [reflexivity|discriminate|assumption]).
  rewrite Split_whole by (apply occurs_render_addr; [reflexivity|discriminate|assumption]).
  reflexivity.
Qed.

Lemma occurs_render_segment s :
  segment_ok s -> occurs "," (render_segment s) = false.
Proof.
  intros [Hl Hh]. unfold render_segment.
  rewrite !occurs_app, !occurs_render_addr by (reflexivity || discriminate || assumption).
  reflexivity.
Qed.

Lemma join_comma_cons s s' l :
  join_comma (s :: s' :: l) = s +:+ "," +:+ join_comma (s' :: l).
Proof. reflexivity. Qed.

Lemma Split_render_field segs :
  Forall segment_ok segs -> segs <> [] ->
  strings.Split (render_field segs) "," = map render_segment segs.
Proof.
  unfold render_field. induction 1 as [|s segs Hs Hsegs IH]; [congruence|]. intros _.
  destruct segs as [|s' segs].
  - simpl. apply Split_whole, occurs_render_segment, Hs.
  - change (join_comma (map render_segment (s :: s' :: segs)))
      with (render_segment s +:+ "," +:+ join_comma (map render_segment (s' :: segs))).
    rewrite Split_app1 by (apply occurs_render_segment, Hs).
    rewrite IH by discriminate. reflexivity.
Qed.

(** ** The two loops on pieces of the right shape *)

Lemma index_nth (l : list string) i :
  (i < length l)%nat -> index l i = Ret (nth i l "").
Proof.
  intros Hi. unfold index. rewrite nth_lookup.
  destruct (l !! i) eqn:E; [reflexivity|].
  apply lookup_ge_None in E. lia.
Qed.

Lemma index_short {A} (l : list A) i :
  (length l <= i)%nat -> index l i = Panic (IndexOutOfRange i (length l)).
Proof.
  intros Hi. unfold index. rewrite (proj2 (lookup_ge_None l i)) by lia. reflexivity.
Qed.

Lemma rangeLoop_cons p ps ranges :
  rangeLoop (p :: ps) ranges =
    (min ← index (strings.Split p "-") 0;
     max ← index (strings.Split p "-") 1;
     rangeLoop ps (ranges ++ [{| Min := min; Max := max |}])).
Proof. reflexivity. Qed.

Lemma sizeLoop_cons l pool size :
  sizeLoop (l :: pool) size =
    (m ← index (strings.Split (Min l) ".") 3;
     m' ← index (strings.Split (Max l) ".") 3;
     sizeLoop pool (GoInt.add size
       (GoInt.sub (fst (strconv.Atoi m')) (fst (strconv.Atoi m))))).
Proof. reflexivity. Qed.

Lemma rangeLoop_shaped ps :
  Forall piece_shaped ps ->
  forall ranges, rangeLoop ps ranges = Ret (ranges ++ map piece_range ps).
Proof.
  induction 1 as [|p ps (lo & hi & rest & E & _) _ IH]; intros ranges.
  - simpl. rewrite app_nil_r. reflexivity.
  - rewrite rangeLoop_cons, !index_nth by (rewrite E; simpl; lia).
    simpl. rewrite IH, <- app_assoc. reflexivity.
Qed.

Lemma rangeLoop_no_dash ps :
  Exists (fun p => occurs "-" p = false) ps ->
  forall ranges, rangeLoop ps ranges = Panic (IndexOutOfRange 1 1).
Proof.
  induction 1 as [p ps Hp|p ps _ IH]; intros ranges; rewrite rangeLoop_cons.
  - rewrite (Split_whole _ _ Hp). reflexivity.
  - pose proof (Split_length p "-") as Hl.
    destruct (strings.Split p "-") as [|a [|b rest]] eqn:E; simpl in Hl; [lia| |].
    + reflexivity.
    + apply IH.
Qed.

Lemma sizeLoop_step l pool size :
  (4 <= length (strings.Split (Min l) "."))%nat ->
  (4 <= length (strings.Split (Max l) "."))%nat ->
  sizeLoop (l :: pool) size =
    sizeLoop pool (GoInt.add size
      (GoInt.sub (fst (strconv.Atoi (nth 3 (strings.Split (Max l) ".") "")))
                 (fst (strconv.Atoi (nth 3 (strings.Split (Min l) ".") ""))))).
Proof.
  intros Hmin Hmax. rewrite sizeLoop_cons, !index_nth by lia. reflexivity.
Qed.

Lemma piece_range_shaped p lo hi rest :
  strings.Split p "-" = lo :: hi :: rest -> piece_range p = {| Min := lo; Max := hi |}.
Proof. intros E. unfold piece_range. rewrite E. reflexivity. Qed.

Lemma sizeLoop_shaped ps :
  Forall piece_shaped ps ->
  forall size, GoInt.in_range size ->
    sizeLoop (map piece_range ps) size = Ret (GoInt.wrap (size + pieces_sum ps)).
Proof.
  induction 1 as [|p ps (lo & hi & rest & E & Hlo & Hhi) _ IH]; intros size Hs.
  - simpl. rewrite Z.add_0_r, wrap_id by assumption. reflexivity.
  - change (map piece_range (p :: ps)) with (piece_range p :: map piece_range ps).
    rewrite (piece_range_shaped _ _ _ _ E).
    rewrite sizeLoop_step by assumption. cbn [Min Max].
    rewrite IH by apply wrap_in_range.
    f_equal. unfold GoInt.add, GoInt.sub.
    rewrite wrap_add_l.
    replace (size + GoInt.wrap (fst (strconv.Atoi (nth 3 (strings.Split hi ".") ""))
                                - fst (strconv.Atoi (nth 3 (strings.Split lo ".") "")))
             + pieces_sum ps)
      with (size + pieces_sum ps
            + GoInt.wrap (fst (strconv.Atoi (nth 3 (strings.Split hi ".") ""))
                          - fst (strconv.Atoi (nth 3 (strings.Split lo ".") ""))))
      by (simpl; lia).
    rewrite wrap_add_r.
    f_equal. change (pieces_sum (p :: ps)) with (piece_delta p + pieces_sum ps).
    unfold piece_delta, piece_side. rewrite E. simpl. lia.
Qed.

Lemma fieldCapacity_shaped field :
  field <> "" -> Forall piece_shaped (strings.Split field ",") ->
  fieldCapacity field = Ret (GoInt.wrap (pieces_sum (strings.Split field ","))).
Proof.
  intros Hne Hs. unfold fieldCapacity, fieldRanges.
  destruct (decide (field = "")) as [E|_]; [destruct (Hne E)|].
  rewrite (rangeLoop_shaped _ Hs). simpl.
  unfold poolSize. apply (sizeLoop_shaped _ Hs 0).
  unfold GoInt.in_range, GoInt.minInt, GoInt.maxInt. lia.
Qed.

Lemma piece_shaped_render s : segment_ok s -> piece_shaped (render_segment s).
Proof.
  intros Hs. exists (render_addr (low s)), (render_addr (high s)), [].
  rewrite Split_render_segment by assumption. destruct Hs as [Hl Hh].
  rewrite !Split_render_addr by assumption. simpl. split_and!; [reflexivity|lia|lia].
Qed.

Lemma piece_delta_render s :
  segment_ok s -> piece_delta (render_segment s) = o4 (high s) - o4 (low s).
Proof.
  intros Hs. unfold piece_delta, piece_side.
  rewrite Split_render_segment by assumption. destruct Hs as [Hl Hh].
  change (nth 1 [render_addr (low s); render_addr (high s)] "") with (render_addr (high s)).
  change (nth 0 [render_addr (low s); render_addr (high s)] "") with (render_addr (low s)).
  rewrite !Split_render_addr by assumption.
  destruct Hl as (_ & _ & _ & Hl), Hh as (_ & _ & _ & Hh). unfold octet_ok in *.
  change (nth 3 [?a; ?b; ?c; ?d] "") with d.
  cbv beta iota delta [nth].
  rewrite !Atoi_FormatInt
    by (unfold GoInt.in_range, GoInt.minInt, GoInt.maxInt; lia).
  reflexivity.
Qed.

Lemma pieces_sum_render segs :
  Forall segment_ok segs ->
  pieces_sum (map render_segment segs) = segments_sum segs.
Proof.
  induction 1 as [|s segs Hs _ IH]; [reflexivity|].
  change (piece_delta (render_segment s) + pieces_sum (map render_segment segs)
          = (o4 (high s) - o4 (low s)) + segments_sum segs).
  rewrite IH, piece_delta_render by assumption. reflexivity.
Qed.

Lemma render_field_nonempty segs :
  Forall segment_ok segs -> segs <> [] -> render_field segs <> "".
Proof.
  intros Hs Hne E. pose proof (Split_render_field segs Hs Hne) as HS.
  rewrite E in HS. destruct Hs as [|s segs Hs Hsegs]; [congruence|].
  destruct segs; [|discriminate]. injection HS as HS.
  pose proof (Split_render_segment s Hs) as HS'. rewrite <- HS in HS'. discriminate.
Qed.

Lemma fieldCapacity_render segs :
  Forall segment_ok segs -> GoInt.in_range (segments_sum segs) ->
  fieldCapacity (render_field segs) = Ret (segments_sum segs).
Proof.
  intros Hs Hr. destruct segs as [|s segs]; [reflexivity|].
  rewrite fieldCapacity_shaped.
  - rewrite Split_render_field, pieces_sum_render, wrap_id by (assumption || discriminate).
    reflexivity.
  - apply render_field_nonempty; [assumption|discriminate].
  - rewrite Split_render_field by (assumption || discriminate).
    apply Forall_map. eapply Forall_impl; [exact Hs|]. apply piece_shaped_render.
Qed.

(** ** Runs of the program *)

Section Runs.
Context {api : routeros.API} {json : JSONString}.

Ltac run :=
  unfold binding, getPoolRange, getPoolUsed, aggregate, main, jserror, Query,
    write_stdout, write_stderr, os_Exit, lift, mbind, mret, M_bind, M_ret;
  simpl.

Lemma bind_run {A B} (m : M A) (f : A -> M B) w :
  (m ≫= f) w =
    match m w with
    | (w', Ret a) => f a w'
    | (w', Exit code) => (w', Exit code)
    | (w', Panic p) => (w', Panic p)
    end.
Proof. reflexivity. Qed.

Lemma getPoolRange_run pool w c r :
  routeros.query (client w) "/ip/pool/print" (poolQuery pool) = (c, r) ->
  getPoolRange pool w =
    (asked w c "/ip/pool/print" (poolQuery pool) r,
     match r with
     | routeros.Fail err => Ret ([], Some err)
     | routeros.Ok res => (fun rs => (rs, None)) <$> replyRanges res
     end).
Proof.
  intros Q. run. rewrite Q.
  destruct r as [res|err]; [|reflexivity].
  unfold replyRanges, fieldRanges.
  destruct (routeros.SubPairs res) as [|sp rest]; [reflexivity|].
  destruct (decide (mapGet sp "ranges" = "")); [reflexivity|].
  destruct (rangeLoop _ _); reflexivity.
Qed.

Lemma getPoolUsed_run pool w c r :
  routeros.query (client w) "/ip/pool/used/print" (usedQuery pool) = (c, r) ->
  getPoolUsed pool w =
    (asked w c "/ip/pool/used/print" (usedQuery pool) r,
     match r with
     | routeros.Fail err => Ret ([], Some err)
     | routeros.Ok res =>
         Ret (map (fun s => mapGet s "address") (routeros.SubPairs res), None)
     end).
Proof. intros Q. run. rewrite Q. destruct r; reflexivity. Qed.


Lemma binding_skip js pr pools w :
  ~ has_pool pr -> binding js pr pools w = (w, Ret pools).
Proof.
  unfold has_pool, binding. intros Hp.
  destruct (decide (mapGet pr "address-pool" = "")); [reflexivity|tauto].
Qed.

Lemma binding_run js pr pools w c1 r1 :
  has_pool pr ->
  routeros.query (client w) "/ip/pool/print"
    (poolQuery (mapGet pr "address-pool")) = (c1, r1) ->
  let name := mapGet pr "address-pool" in
  let w1 := asked w c1 "/ip/pool/print" (poolQuery name) r1 in
  binding js pr pools w =
    match r1 with
    | routeros.Fail err => (complained w1 (pool_diag js name err), Exit 1)
    | routeros.Ok res =>
        match replyRanges res ≫= poolSize with
        | Ret size =>
            let '(c2, r2) :=
              routeros.query c1 "/ip/pool/used/print" (usedQuery name) in
            let w2 := asked w1 c2 "/ip/pool/used/print" (usedQuery name) r2 in
            match r2 with
            | routeros.Fail err => (complained w2 (used_diag js name err), Exit 1)
            | routeros.Ok res2 =>
                let p := record_of pr size res2 in
                (if js then w2 else printed w2 (text_line p), Ret (pools ++ [p]))
            end
        | Exit code => (w1, Exit code)
        | Panic p => (w1, Panic p)
        end
    end.
Proof.
  intros Hp Q name w1. subst name w1. unfold binding.
  destruct (decide (mapGet pr "address-pool" = "")) as [E|_]; [destruct (Hp E)|].
  rewrite bind_run, (getPoolRange_run _ _ _ _ Q).
  destruct r1 as [res|err].
  2:{ simpl. destruct js; reflexivity. }
  destruct (replyRanges res) as [pool| |]; simpl; [|reflexivity|reflexivity].
  rewrite bind_run. unfold lift at 1.
  destruct (poolSize pool) as [size| |]; simpl; [|reflexivity|reflexivity].
  destruct (routeros.query c1 "/ip/pool/used/print" _) as [c2 r2] eqn:Q2.
  rewrite bind_run,
    (getPoolUsed_run _ (asked w c1 "/ip/pool/print" _ (routeros.Ok res)) c2 r2 Q2).
  destruct r2 as [res2|err]; simpl.
  - unfold record_of. rewrite length_map. destruct js; reflexivity.
  - destruct js; reflexivity.
Qed.

Lemma failed_asked w c path q r :
  failed_queries (asked w c path q r)
  = (failed_queries w + (if result_ok r then 0 else 1))%nat.
Proof.
  unfold failed_queries, asked; simpl.
  rewrite filter_app, length_app. f_equal. destruct r; reflexivity.
Qed.

Lemma eligible_cons pr pairs :
  eligible (pr :: pairs) = eligible [pr] ++ eligible pairs.
Proof.
  unfold eligible. rewrite <- map_app. f_equal.
  change (pr :: pairs) with ([pr] ++ pairs). apply filter_app.
Qed.

Lemma eligible_one pr :
  eligible [pr] = if decide (has_pool pr) then [mapGet pr "interface"] else [].
Proof.
  unfold eligible. rewrite filter_cons, filter_nil.
  destruct (decide (has_pool pr)); reflexivity.
Qed.

Lemma text_lines_app recs1 recs2 :
  text_lines (recs1 ++ recs2) = text_lines recs1 +:+ text_lines recs2.
Proof.
  induction recs1 as [|p recs1 IH]; [reflexivity|].
  simpl. rewrite IH, append_assoc. reflexivity.
Qed.

Ltac failed :=
  unfold failed_queries; simpl; rewrite ?filter_app, ?length_app; simpl; lia.

Lemma index_no_exit {A} (l : list A) i code : index l i <> Exit code.
Proof. unfold index. destruct (l !! i); discriminate. Qed.

Lemma rangeLoop_no_exit ps ranges code : rangeLoop ps ranges <> Exit code.
Proof.
  revert ranges. induction ps as [|p ps IH]; intros ranges; simpl; [discriminate|].
  destruct (index (strings.Split p "-") 0) eqn:E0; simpl;
    [|destruct (index_no_exit _ _ _ E0)|discriminate].
  destruct (index (strings.Split p "-") 1) eqn:E1; simpl;
    [apply IH|destruct (index_no_exit _ _ _ E1)|discriminate].
Qed.

Lemma sizeLoop_no_exit pool size code : sizeLoop pool size <> Exit code.
Proof.
  revert size. induction pool as [|l pool IH]; intros size; simpl; [discriminate|].
  destruct (index (strings.Split (Min l) ".") 3) eqn:E0; simpl;
    [|destruct (index_no_exit _ _ _ E0)|discriminate].
  destruct (index (strings.Split (Max l) ".") 3) eqn:E1; simpl;
    [apply IH|destruct (index_no_exit _ _ _ E1)|discriminate].
Qed.

Lemma replySize_no_exit res code : replyRanges res ≫= poolSize <> Exit code.
Proof.
  unfold replyRanges, fieldRanges.
  assert (G : forall r : Res (list IPRange),
             (forall c, r <> Exit c) -> r ≫= poolSize <> Exit code).
  { intros [pool|c|p] Hr; simpl; [apply sizeLoop_no_exit|destruct (Hr c eq_refl)|discriminate]. }
  destruct (routeros.SubPairs res) as [|sp rest].
  - apply G. discriminate.
  - destruct (decide _); apply G; [discriminate|]. intros c. apply rangeLoop_no_exit.
Qed.

Lemma binding_inv js pr pools w w' r :
  binding js pr pools w = (w', r) ->
  match r with
  | Ret pools' =>
      exists recs, pools' = pools ++ recs /\
        map Interface recs = eligible [pr] /\
        stdout w' = stdout w +:+ (if js then "" else text_lines recs) /\
        stderr w' = stderr w /\ failed_queries w' = failed_queries w
  | Exit code =>
      code = 1 /\ stdout w' = stdout w /\
      (exists d, diagnostic js d /\ stderr w' = stderr w +:+ d) /\
      failed_queries w' = S (failed_queries w)
  | Panic _ =>
      stdout w' = stdout w /\ stderr w' = stderr w /\
      failed_queries w' = failed_queries w
  end.
Proof.
  rewrite eligible_one.
  destruct (decide (has_pool pr)) as [Hp|Hp].
  2:{ rewrite (binding_skip _ _ _ _ Hp). intros [= <- <-].
      exists []. rewrite app_nil_r. destruct js; simpl; rewrite ?append_nil_r; done. }
  destruct (routeros.query (client w) "/ip/pool/print"
              (poolQuery (mapGet pr "address-pool"))) as [c1 r1] eqn:Q1.
  rewrite (binding_run js pr pools w c1 r1 Hp Q1).
  destruct r1 as [res|err].
  2:{ intros [= <- <-]. split_and!; try done; try failed.
      eexists; split; [apply diag_pool|reflexivity]. }
  destruct (replyRanges res ≫= poolSize) as [size|code|p] eqn:E.
  2:{ destruct (replySize_no_exit _ _ E). }
  2:{ intros [= <- <-]. split_and!; try done; failed. }
  destruct (routeros.query c1 "/ip/pool/used/print" _) as [c2 r2] eqn:Q2.
  destruct r2 as [res2|err]; intros [= <- <-].
  - exists [record_of pr size res2]. split_and!; try done.
    + destruct js; simpl; rewrite ?append_nil_r; reflexivity.
    + destruct js; reflexivity.
    + destruct js; failed.
  - split_and!; try done; try failed.
    eexists; split; [apply diag_used|reflexivity].
Qed.

Lemma forEach_inv js pairs : forall pools w w' r,
  forEach pairs (binding js) pools w = (w', r) ->
  exists recs pre post,
    pairs = pre ++ post /\ map Interface recs = eligible pre /\
    stdout w' = stdout w +:+ (if js then "" else text_lines recs) /\
    match r with
    | Ret pools' =>
        post = [] /\ pools' = pools ++ recs /\
        stderr w' = stderr w /\ failed_queries w' = failed_queries w
    | Exit code =>
        code = 1 /\ post <> [] /\
        (exists d, diagnostic js d /\ stderr w' = stderr w +:+ d) /\
        failed_queries w' = S (failed_queries w)
    | Panic _ =>
        post <> [] /\ stderr w' = stderr w /\
        failed_queries w' = failed_queries w
    end.
Proof.
  induction pairs as [|pr pairs IH]; intros pools w w' r.
  - intros [= <- <-]. exists [], [], [].
    split_and!; try done; [|apply eq_sym, app_nil_r].
    destruct js; simpl; rewrite append_nil_r; reflexivity.
  - simpl. rewrite bind_run.
    destruct (binding js pr pools w) as [w1 r1] eqn:B.
    pose proof (binding_inv _ _ _ _ _ _ B) as Hb.
    destruct r1 as [pools1|code|p].
    + destruct Hb as (recs1 & -> & Hi1 & Ho1 & He1 & Hf1).
      intros F. destruct (IH _ _ _ _ F) as (recs2 & pre & post & -> & Hi2 & Ho2 & Hr).
      exists (recs1 ++ recs2), (pr :: pre), post. split_and!.
      * reflexivity.
      * rewrite map_app, eligible_cons, Hi1, Hi2. reflexivity.
      * rewrite Ho2, Ho1, append_assoc. destruct js; [reflexivity|].
        rewrite text_lines_app. reflexivity.
      * destruct r as [pools'|code|p].
        -- destruct Hr as (-> & -> & He2 & Hf2). rewrite app_assoc. split_and!; congruence.
        -- destruct Hr as (-> & Hp & (d & Hd & He2) & Hf2).
           split_and!; try done; [|congruence]. exists d. split; [done|congruence].
        -- destruct Hr as (Hp & He2 & Hf2). split_and!; congruence.
    + intros [= <- <-]. destruct Hb as (-> & Ho & Hd & Hf).
      exists [], [], (pr :: pairs). split_and!; try done.
      destruct js; simpl; rewrite ?append_nil_r; done.
    + intros [= <- <-]. destruct Hb as (Ho & He & Hf).
      exists [], [], (pr :: pairs). split_and!; try done.
      destruct js; simpl; rewrite ?append_nil_r; done.
Qed.

Lemma aggregate_run js w c r :
  routeros.query (client w) "/ip/dhcp-server/getall" serversQuery = (c, r) ->
  let w1 := asked w c "/ip/dhcp-server/getall" serversQuery r in
  aggregate js w =
    match r with
    | routeros.Fail err => (complained w1 (servers_diag js err), Exit 1)
    | routeros.Ok res =>
        forEach (routeros.SubPairs res) (binding js) []
                (if js then w1 else printed w1 text_header)
    end.
Proof.
  intros Q w1. subst w1. unfold aggregate. rewrite bind_run. unfold Query. rewrite Q.
  destruct r as [res|err]; destruct js; reflexivity.
Qed.

Lemma main_run js w :
  main js w =
    match aggregate js w with
    | (w1, Ret pools) =>
        (if js then printed w1 (marshal_pools pools) else w1, Ret tt)
    | (w1, Exit code) => (w1, Exit code)
    | (w1, Panic p) => (w1, Panic p)
    end.
Proof.
  unfold main. rewrite bind_run.
  destruct (aggregate js w) as [w1 [pools|code|p]]; destruct js; reflexivity.
Qed.

(** What a run of the aggregation leaves behind, whichever way it ends. *)
Lemma aggregate_inv js w w' r :
  aggregate js w = (w', r) ->
  exists c r0,
    routeros.query (client w) "/ip/dhcp-server/getall" serversQuery = (c, r0) /\
    match r0 with
    | routeros.Fail err =>
        r = Exit 1 /\ stdout w' = stdout w /\
        stderr w' = stderr w +:+ servers_diag js err /\
        failed_queries w' = S (failed_queries w)
    | routeros.Ok res =>
        exists recs pre post,
          routeros.SubPairs res = pre ++ post /\
          map Interface recs = eligible pre /\
          stdout w' = stdout w +:+
            (if js then "" else text_header +:+ text_lines recs) /\
          match r with
          | Ret pools =>
              post = [] /\ pools = recs /\
              stderr w' = stderr w /\ failed_queries w' = failed_queries w
          | Exit code =>
              code = 1 /\ post <> [] /\
              (exists d, diagnostic js d /\ stderr w' = stderr w +:+ d) /\
              failed_queries w' = S (failed_queries w)
          | Panic _ =>
              post <> [] /\ stderr w' = stderr w /\
              failed_queries w' = failed_queries w
          end
    end.
Proof.
  destruct (routeros.query (client w) "/ip/dhcp-server/getall" serversQuery)
    as [c r0] eqn:Q.
  rewrite (aggregate_run js w c r0 Q). intros F. exists c, r0. split; [reflexivity|].
  destruct r0 as [res|err].
  - destruct (forEach_inv _ _ _ _ _ _ F) as (recs & pre & post & Hs & Hi & Ho & Hr).
    exists recs, pre, post. split_and!; try done.
    + rewrite Ho. destruct js; [reflexivity|]. simpl. apply append_assoc.
    + destruct r as [pools|code|p].
      * destruct Hr as (-> & -> & He & Hf). split_and!; try done.
        -- rewrite He. destruct js; reflexivity.
        -- rewrite Hf. destruct js; failed.
      * destruct Hr as (-> & Hp & (d & Hd & He) & Hf). split_and!; try done.
        -- exists d. split; [done|]. rewrite He. destruct js; reflexivity.
        -- rewrite Hf. destruct js; failed.
      * destruct Hr as (Hp & He & Hf). split_and!; try done.
        -- rewrite He. destruct js; reflexivity.
        -- rewrite Hf. destruct js; failed.
  - injection F as <- <-. split_and!; try done. failed.
Qed.
End Runs.

(** ** Reading a printed column back *)





Lemma Split_app_all s t sep :
  strings.Split (s +:+ String sep "" +:+ t) sep
  = strings.Split s sep ++ strings.Split t sep.
Proof.
  induction s as [|c s IH].
  - change ("" +:+ String sep "" +:+ t) with (String sep t).
    rewrite Split_cons, Ascii.eqb_refl. reflexivity.
  - rewrite append_cons, !Split_cons, IH.
    destruct (Ascii.eqb c sep); [reflexivity|].
    pose proof (Split_length s sep) as Hl.
    destruct (strings.Split s sep); [simpl in Hl; lia|reflexivity].
Qed.

Lemma Atoi_syntax_zero o v :
  strconv.Atoi o = (v, Some strconv.ErrSyntax) -> v = 0.
Proof.
  unfold strconv.Atoi, strconv.ParseInt. destruct o as [|c s]; [congruence|].
  destruct (strconv.ParseUint _) as [un [[]|]];
    repeat match goal with |- context [if ?b then _ else _] => destruct b end;
    congruence.
Qed.

(** * The claims *)

Section Claims.
Context {api : routeros.API} {json : JSONString}.

(** What a binding with a pool leaves when its turn ends well: both
    queries answered, and the record built from the two replies. *)
Lemma binding_ret js pr pools w w' pools' :
  has_pool pr ->
  binding js pr pools w = (w', Ret pools') ->
  let name := mapGet pr "address-pool" in
  exists c1 res1 size c2 res2,
    routeros.query (client w) "/ip/pool/print" (poolQuery name)
      = (c1, routeros.Ok res1) /\
    replyRanges res1 ≫= poolSize = Ret size /\
    routeros.query c1 "/ip/pool/used/print" (usedQuery name)
      = (c2, routeros.Ok res2) /\
    pools' = pools ++ [record_of pr size res2] /\
    w' = (let w2 := asked (asked w c1 "/ip/pool/print" (poolQuery name)
                                 (routeros.Ok res1))
                          c2 "/ip/pool/used/print" (usedQuery name)
                          (routeros.Ok res2) in
          if js then w2 else printed w2 (text_line (record_of pr size res2))).
Proof.
  intros Hp B name. subst name.
  destruct (routeros.query (client w) "/ip/pool/print"
              (poolQuery (mapGet pr "address-pool"))) as [c1 r1] eqn:Q1.
  rewrite (binding_run js pr pools w c1 r1 Hp Q1) in B.
  destruct r1 as [res1|err]; [|discriminate].
  destruct (replyRanges res1 ≫= poolSize) as [size| |] eqn:E; [|discriminate|discriminate].
  destruct (routeros.query c1 "/ip/pool/used/print" _) as [c2 r2] eqn:Q2.
  destruct r2 as [res2|err]; [|discriminate].
  injection B as <- <-. exists c1, res1, size, c2, res2. split_and!; reflexivity || assumption.
Qed.

(** C1.  For every valid comma-separated range field (what the router
    prints for a list of address ranges), the capacity computed from
    it is the sum over the segments of the last octet of the high
    address minus the last octet of the low address, as long as that
    sum is a Go [int]: [getPoolRange] returns the ranges without error
    and the sizing loop of [main] adds up to the sum. *)
Theorem valid_field_capacity segs w pool c sp rest :
  Forall segment_ok segs ->
  GoInt.in_range (segments_sum segs) ->
  routeros.query (client w) "/ip/pool/print" (poolQuery pool)
    = (c, routeros.Ok {| routeros.SubPairs := sp :: rest |}) ->
  mapGet sp "ranges" = render_field segs ->
  fieldCapacity (render_field segs) = Ret (segments_sum segs) /\
  exists ranges,
    getPoolRange pool w
      = (asked w c "/ip/pool/print" (poolQuery pool)
               (routeros.Ok {| routeros.SubPairs := sp :: rest |}),
         Ret (ranges, None)) /\
    poolSize ranges = Ret (segments_sum segs).
Proof.
  intros Hs Hr Q Hf. pose proof (fieldCapacity_render segs Hs Hr) as HC.
  split; [exact HC|].
  rewrite (getPoolRange_run _ _ _ _ Q). unfold replyRanges. simpl routeros.SubPairs.
  cbv iota. rewrite Hf. unfold fieldCapacity in HC.
  destruct (fieldRanges (render_field segs)) as [ranges| |]; [|discriminate|discriminate].
  exists ranges. split; [reflexivity|exact HC].
Qed.

(** C2, as amended.  A range field with a piece that has no dash makes
    [getPoolRange] panic on [rng[1]] (index out of range): no capacity
    comes out, and the loop over the DHCP servers stops there with the
    panic, nothing more printed. *)
Theorem missing_dash_aborts js field pr pairs pools w c sp rest :
  field <> "" ->
  Exists (fun p => occurs "-" p = false) (strings.Split field ",") ->
  has_pool pr ->
  routeros.query (client w) "/ip/pool/print" (poolQuery (mapGet pr "address-pool"))
    = (c, routeros.Ok {| routeros.SubPairs := sp :: rest |}) ->
  mapGet sp "ranges" = field ->
  fieldCapacity field = Panic (IndexOutOfRange 1 1) /\
  forEach (pr :: pairs) (binding js) pools w
    = (asked w c "/ip/pool/print" (poolQuery (mapGet pr "address-pool"))
             (routeros.Ok {| routeros.SubPairs := sp :: rest |}),
       Panic (IndexOutOfRange 1 1)).
Proof.
  intros Hne Hex Hp Q Hf.
  assert (HR : fieldRanges field = Panic (IndexOutOfRange 1 1)).
  { unfold fieldRanges. destruct (decide (field = "")) as [E|_]; [destruct (Hne E)|].
    apply rangeLoop_no_dash, Hex. }
  split; [unfold fieldCapacity; rewrite HR; reflexivity|].
  simpl forEach. rewrite bind_run, (binding_run js pr pools w _ _ Hp Q).
  unfold replyRanges. simpl routeros.SubPairs. cbv iota. rewrite Hf, HR. reflexivity.
Qed.




(** A completed aggregation: the reply it worked from, the records it
    made, and what was written. *)
Lemma aggregate_ret js w w' pools :
  aggregate js w = (w', Ret pools) ->
  exists c res,
    routeros.query (client w) "/ip/dhcp-server/getall" serversQuery
      = (c, routeros.Ok res) /\
    map Interface pools = eligible (routeros.SubPairs res) /\
    stdout w' = stdout w +:+ (if js then "" else text_header +:+ text_lines pools) /\
    main js w = (if js then printed w' (marshal_pools pools) else w', Ret tt).
Proof.
  intros A. destruct (aggregate_inv _ _ _ _ A) as (c & r0 & Q & Hr0).
  destruct r0 as [res|err]; [|destruct Hr0 as (? & _); discriminate].
  destruct Hr0 as (recs & pre & post & Hs & Hi & Ho & -> & -> & _ & _).
  rewrite app_nil_r in Hs. subst pre.
  exists c, res. split_and!; try done.
  rewrite main_run, A. reflexivity.
Qed.

(** C4.  When the aggregation completes, it has made exactly one
    record per binding with a non-empty pool name and none for the
    others, in the order of the reply to the query for the DHCP
    servers; there are no more records than bindings, and these
    records are what goes to the output. *)
Theorem one_record_per_pooled_binding js w w' pools :
  aggregate js w = (w', Ret pools) ->
  exists c res,
    routeros.query (client w) "/ip/dhcp-server/getall" serversQuery
      = (c, routeros.Ok res) /\
    map Interface pools = eligible (routeros.SubPairs res) /\
    length pools = length (filter has_pool (routeros.SubPairs res)) /\
    (length pools <= length (routeros.SubPairs res))%nat /\
    stdout w' = stdout w +:+ (if js then "" else text_header +:+ text_lines pools) /\
    main js w = (if js then printed w' (marshal_pools pools) else w', Ret tt).
Proof.
  intros A. destruct (aggregate_ret _ _ _ _ A) as (c & res & Q & Hi & Ho & Hm).
  assert (HL : length pools = length (filter has_pool (routeros.SubPairs res))).
  { rewrite <- (length_map Interface pools), Hi. unfold eligible. apply length_map. }
  exists c, res. split_and!; try done.
  rewrite HL. apply length_filter.
Qed.

(** C5.  When the query for a pool returns no record, or a first
    record whose range list is empty, [getPoolRange] returns no ranges
    and no error, and the capacity of no ranges is 0. *)
Theorem unknown_or_empty_pool w pool c res :
  routeros.query (client w) "/ip/pool/print" (poolQuery pool)
    = (c, routeros.Ok res) ->
  (routeros.SubPairs res = [] \/
   exists sp rest, routeros.SubPairs res = sp :: rest /\ mapGet sp "ranges" = "") ->
  getPoolRange pool w
    = (asked w c "/ip/pool/print" (poolQuery pool) (routeros.Ok res),
       Ret ([], None)) /\
  poolSize [] = Ret 0.
Proof.
  intros Q Hres. split; [|reflexivity].
  rewrite (getPoolRange_run _ _ _ _ Q). unfold replyRanges.
  destruct Hres as [->|(sp & rest & -> & E)]; [reflexivity|].
  unfold fieldRanges. rewrite E. reflexivity.
Qed.

(** C6.  The [Used] field of the record made for a binding is the
    number of records in the reply to the usage query, one address per
    record, duplicates included. *)
Theorem used_counts_reply_records js pr pools w w' pools' :
  has_pool pr ->
  binding js pr pools w = (w', Ret pools') ->
  exists c1 res1 c2 res2 p,
    routeros.query (client w) "/ip/pool/print"
      (poolQuery (mapGet pr "address-pool")) = (c1, routeros.Ok res1) /\
    routeros.query c1 "/ip/pool/used/print"
      (usedQuery (mapGet pr "address-pool")) = (c2, routeros.Ok res2) /\
    getPoolUsed (mapGet pr "address-pool")
        (asked w c1 "/ip/pool/print" (poolQuery (mapGet pr "address-pool"))
               (routeros.Ok res1))
      = (asked (asked w c1 "/ip/pool/print"
                      (poolQuery (mapGet pr "address-pool")) (routeros.Ok res1))
               c2 "/ip/pool/used/print" (usedQuery (mapGet pr "address-pool"))
               (routeros.Ok res2),
         Ret (map (fun s => mapGet s "address") (routeros.SubPairs res2), None)) /\
    pools' = pools ++ [p] /\
    Used p = Z.of_nat (length (routeros.SubPairs res2)).
Proof.
  intros Hp B.
  destruct (binding_ret _ _ _ _ _ _ Hp B) as (c1 & res1 & size & c2 & res2 & Q1 & _ & Q2 & -> & _).
  exists c1, res1, c2, res2, (record_of pr size res2). split_and!; try done.
  apply (getPoolUsed_run _ (asked w c1 "/ip/pool/print" _ (routeros.Ok res1)) c2 _ Q2).
Qed.

(** C9.  When the query for a pool returns several records, only the
    range list of the first one is read: the result of [getPoolRange],
    and the capacity computed from it, are those of that field alone,
    whatever the other records hold. *)
Theorem only_first_record_counts w pool c sp rest :
  routeros.query (client w) "/ip/pool/print" (poolQuery pool)
    = (c, routeros.Ok {| routeros.SubPairs := sp :: rest |}) ->
  getPoolRange pool w
    = (asked w c "/ip/pool/print" (poolQuery pool)
             (routeros.Ok {| routeros.SubPairs := [sp] |}),
       (fun rs => (rs, None)) <$> fieldRanges (mapGet sp "ranges")) /\
  replyRanges {| routeros.SubPairs := sp :: rest |} ≫= poolSize
    = fieldCapacity (mapGet sp "ranges").
Proof.
  intros Q. split; [|reflexivity].
  rewrite (getPoolRange_run _ _ _ _ Q). reflexivity.
Qed.

(** C10.  In JSON mode, a run whose aggregation completes without a
    single record writes the four bytes [null] to the standard output
    and nothing else, not an empty list. *)
Theorem no_record_marshals_null w w1 :
  aggregate true w = (w1, Ret []) ->
  main true w = (printed w1 "null", Ret tt) /\
  stdout (printed w1 "null") = stdout w +:+ "null".
Proof.
  intros A. destruct (aggregate_ret _ _ _ _ A) as (c & res & _ & _ & Ho & Hm).
  split; [exact Hm|]. simpl. rewrite Ho, append_nil_r. reflexivity.
Qed.

End Claims.

(** C8, as amended.  A non-empty range field in which every piece has
    a dash and at least four dot components on each of its first two
    sides is sized without error: the capacity is the wrapped sum of
    the differences of the fourth components as [Atoi] values them.
    A component that [Atoi] rejects as not a number is valued 0, and
    what follows a second dash changes nothing. *)
Theorem shaped_field_is_sized field :
  field <> "" ->
  Forall piece_shaped (strings.Split field ",") ->
  fieldCapacity field = Ret (GoInt.wrap (pieces_sum (strings.Split field ","))) /\
  (forall o v, strconv.Atoi o = (v, Some strconv.ErrSyntax) -> v = 0) /\
  (forall p extra, In p (strings.Split field ",") ->
     piece_shaped (p +:+ "-" +:+ extra) /\
     piece_delta (p +:+ "-" +:+ extra) = piece_delta p).
Proof.
  intros Hne Hs. split_and!.
  - apply fieldCapacity_shaped; assumption.
  - apply Atoi_syntax_zero.
  - intros p extra Hin.
    destruct (proj1 (List.Forall_forall _ _) Hs p Hin) as (lo & hi & rest & E & Hlo & Hhi).
    assert (E' : strings.Split (p +:+ "-" +:+ extra) "-"
                 = lo :: hi :: rest ++ strings.Split extra "-").
    { rewrite Split_app_all, E. reflexivity. }
    split.
    + exists lo, hi, (rest ++ strings.Split extra "-"). split_and!; assumption.
    + unfold piece_delta, piece_side. rewrite E', E. reflexivity.
Qed.

(** * Concrete runs *)

Ltac octets := repeat constructor; unfold octet_ok; simpl; lia.
Ltac in_int := unfold GoInt.in_range, GoInt.minInt, GoInt.maxInt; simpl; lia.

(** Scenarios A and B: capacities 10 and 20. *)
Lemma valid_field_capacity_witness :
  fieldCapacity "10.0.0.10-10.0.0.20" = Ret 10 /\
  fieldCapacity "10.0.0.10-10.0.0.20,10.0.0.30-10.0.0.40" = Ret 20.
Proof.
  split.
  - refine (proj1 (valid_field_capacity (api := scripted) [range_10_20]
      (boot [reply [record [("ranges", "10.0.0.10-10.0.0.20")]]]) "office-pool" []
      (record [("ranges", "10.0.0.10-10.0.0.20")]) [] _ _ _ _)).
    + octets.
    + in_int.
    + reflexivity.
    + vm_compute. reflexivity.
  - refine (proj1 (valid_field_capacity (api := scripted) [range_10_20; range_30_40]
      (boot [reply [record [("ranges", "10.0.0.10-10.0.0.20,10.0.0.30-10.0.0.40")]]])
      "office-pool" []
      (record [("ranges", "10.0.0.10-10.0.0.20,10.0.0.30-10.0.0.40")]) [] _ _ _ _)).
    + octets.
    + in_int.
    + reflexivity.
    + vm_compute. reflexivity.
Defined.

(** C2 as stated fails: a last octet that is not a number is malformed
    in the claim's sense, and yet the field is sized (the octet counts
    as 0). *)
Lemma unparseable_octet_is_sized :
  field_malformed "10.0.0.x-10.0.0.20" = true /\
  fieldCapacity "10.0.0.x-10.0.0.20" = Ret 20.
Proof. split; vm_compute; reflexivity. Qed.

Lemma missing_dash_aborts_witness :
  fieldCapacity "10.0.0.10" = Panic (IndexOutOfRange 1 1) /\
  snd (forEach (api := scripted) [ether1_office]
         (binding (json := quote_only) true) [] (boot script_no_dash))
    = Panic (IndexOutOfRange 1 1).
Proof.
  destruct (missing_dash_aborts (api := scripted) (json := quote_only) true
    "10.0.0.10" ether1_office [] [] (boot script_no_dash) []
    (record [("ranges", "10.0.0.10")]) [])
    as [HC HF].
  - discriminate.
  - constructor. reflexivity.
  - unfold has_pool. vm_compute. discriminate.
  - reflexivity.
  - vm_compute. reflexivity.
  - split; [exact HC|]. rewrite HF. reflexivity.
Defined.



Lemma one_record_per_pooled_binding_witness :
  let out := aggregate (api := scripted) (json := quote_only) true (boot script_office) in
  snd out = Ret [{| Interface := "ether1"; Used := 3; Size := 10 |}] /\
  main (api := scripted) (json := quote_only) true (boot script_office)
    = (printed (fst out)
         (marshal_pools (json := quote_only)
            [{| Interface := "ether1"; Used := 3; Size := 10 |}]),
       Ret tt).
Proof.
  intros out.
  assert (A : out = (fst out, Ret [{| Interface := "ether1"; Used := 3; Size := 10 |}]))
    by (vm_compute; reflexivity).
  destruct (one_record_per_pooled_binding (api := scripted) (json := quote_only) true
              (boot script_office) (fst out) _ A)
    as (c & res & _ & _ & _ & _ & _ & Hm).
  split; [rewrite A; reflexivity|exact Hm].
Defined.

Lemma unknown_or_empty_pool_witness :
  snd (getPoolRange (api := scripted) "guest-pool" (boot [reply []]))
    = Ret ([], None) /\
  snd (getPoolRange (api := scripted) "guest-pool"
         (boot [reply [record [("ranges", "")]]]))
    = Ret ([], None).
Proof.
  split.
  - rewrite (proj1 (unknown_or_empty_pool (api := scripted) (boot [reply []])
      "guest-pool" [] {| routeros.SubPairs := [] |} eq_refl (or_introl eq_refl))).
    reflexivity.
  - rewrite (proj1 (unknown_or_empty_pool (api := scripted)
      (boot [reply [record [("ranges", "")]]])
      "guest-pool" [] {| routeros.SubPairs := [record [("ranges", "")]] |} eq_refl
      (or_intror (ex_intro _ _ (ex_intro _ _ (conj eq_refl eq_refl)))))).
    reflexivity.
Defined.

Lemma used_counts_reply_records_witness :
  let out := binding (api := scripted) (json := quote_only) true ether1_office []
               (boot (tail script_office)) in
  snd out = Ret [{| Interface := "ether1"; Used := 3; Size := 10 |}].
Proof.
  intros out.
  assert (B : out = (fst out, Ret [{| Interface := "ether1"; Used := 3; Size := 10 |}]))
    by (vm_compute; reflexivity).
  destruct (used_counts_reply_records (api := scripted) (json := quote_only) true
              ether1_office [] (boot (tail script_office)) (fst out)
              [{| Interface := "ether1"; Used := 3; Size := 10 |}])
    as (c1 & res1 & c2 & res2 & p & _ & _ & _ & Hp & _).
  - unfold has_pool. vm_compute. discriminate.
  - exact B.
  - rewrite B. reflexivity.
Defined.



(** C8 as stated fails: a piece with a dash but no dotted quads makes
    the sizing loop panic on [minparts[3]]. *)
Lemma dash_without_quads_panics :
  occurs "-" "a-b" = true /\
  fieldCapacity "a-b" = Panic (IndexOutOfRange 3 1).
Proof. split; vm_compute; reflexivity. Qed.

Lemma shaped_field_is_sized_witness :
  fieldCapacity "10.0.0.x-10.0.0.20-rest" = Ret 20 /\
  piece_delta ("10.0.0.x-10.0.0.20-rest" +:+ "-" +:+ "more") = 20.
Proof.
  destruct (shaped_field_is_sized "10.0.0.x-10.0.0.20-rest") as (HC & _ & HE).
  - discriminate.
  - repeat constructor.
    exists "10.0.0.x", "10.0.0.20", ["rest"]. split_and!; [reflexivity|simpl; lia|simpl; lia].
  - split; [exact HC|].
    rewrite (proj2 (HE "10.0.0.x-10.0.0.20-rest" "more" (or_introl eq_refl))).
    reflexivity.
Defined.

Lemma only_first_record_counts_witness :
  snd (getPoolRange (api := scripted) "office-pool" (boot (tail script_office)))
    = Ret ([{| Min := "10.0.0.10"; Max := "10.0.0.20" |}], None).
Proof.
  rewrite (proj1 (only_first_record_counts (api := scripted)
    (boot (tail script_office)) "office-pool" _
    (record [("ranges", "10.0.0.10-10.0.0.20")])
    [record [("ranges", "10.0.0.100-10.0.0.200")]] eq_refl)).
  vm_compute. reflexivity.
Defined.

Lemma no_record_marshals_null_witness :
  let out := main (api := scripted) (json := quote_only) true (boot script_no_pool) in
  snd out = Ret tt /\ stdout (fst out) = "null".
Proof.
  intros out.
  destruct (no_record_marshals_null (api := scripted) (json := quote_only)
              (boot script_no_pool)
              (fst (aggregate (api := scripted) (json := quote_only) true
                      (boot script_no_pool))))
    as [Hm Ho].
  - vm_compute. reflexivity.
  - subst out. rewrite Hm. split; [reflexivity|]. simpl fst. rewrite Ho. reflexivity.
Defined.


(** * Further properties of the program *)

Section Log.
Context {api : routeros.API} {json : JSONString}.

(** The log after one binding: its two queries when all went well, a
    failed query last when the run exits. *)
Lemma binding_log js pr pools w w' r :
  binding js pr pools w = (w', r) ->
  exists evs,
    queries w' = queries w ++ evs /\
    match r with
    | Ret _ => evs = binding_queries pr
    | Exit _ =>
        exists oks e, evs = oks ++ [e] /\ q_ok e = false /\
                      Forall (fun e => q_ok e = true) oks
    | Panic _ => Forall (fun e => q_ok e = true) evs
    end.
Proof.
  unfold binding_queries.
  destruct (decide (has_pool pr)) as [Hp|Hp].
  2:{ rewrite (binding_skip _ _ _ _ Hp). intros [= <- <-].
      exists []. rewrite app_nil_r. done. }
  destruct (routeros.query (client w) "/ip/pool/print"
              (poolQuery (mapGet pr "address-pool"))) as [c1 r1] eqn:Q1.
  rewrite (binding_run js pr pools w c1 r1 Hp Q1).
  destruct r1 as [res|err].
  2:{ intros [= <- <-]. eexists. split; [reflexivity|].
      eexists [], _. split_and!; [reflexivity|reflexivity|constructor]. }
  destruct (replyRanges res ≫= poolSize) as [size|code|p] eqn:E.
  2:{ destruct (replySize_no_exit _ _ E). }
  2:{ intros [= <- <-]. eexists. split; [reflexivity|]. repeat constructor. }
  destruct (routeros.query c1 "/ip/pool/used/print" _) as [c2 r2] eqn:Q2.
  destruct r2 as [res2|err]; intros [= <- <-].
  - eexists. split; [destruct js; simpl; rewrite <- app_assoc; reflexivity|reflexivity].
  - eexists. split; [simpl; rewrite <- app_assoc; reflexivity|].
    eexists [pool_asked (mapGet pr "address-pool")], _.
    split_and!; [reflexivity|reflexivity|repeat constructor].
Qed.

Lemma forEach_log js pairs : forall pools w w' r,
  forEach pairs (binding js) pools w = (w', r) ->
  exists evs,
    queries w' = queries w ++ evs /\
    match r with
    | Ret _ => evs = flat_map binding_queries pairs
    | Exit _ =>
        exists oks e, evs = oks ++ [e] /\ q_ok e = false /\
                      Forall (fun e => q_ok e = true) oks
    | Panic _ => Forall (fun e => q_ok e = true) evs
    end.
Proof.
  assert (Hok : forall pr, Forall (fun e => q_ok e = true) (binding_queries pr)).
  { intros pr. unfold binding_queries. destruct (decide _); repeat constructor. }
  induction pairs as [|pr pairs IH]; intros pools w w' r.
  - intros [= <- <-]. exists []. rewrite app_nil_r. done.
  - simpl forEach. rewrite bind_run.
    destruct (binding js pr pools w) as [w1 r1] eqn:B.
    destruct (binding_log _ _ _ _ _ _ B) as (evs1 & Hq1 & Hr1).
    destruct r1 as [pools1|code|p].
    + intros F. destruct (IH _ _ _ _ F) as (evs2 & Hq2 & Hr2).
      exists (evs1 ++ evs2). split; [rewrite Hq2, Hq1, app_assoc; reflexivity|].
      subst evs1. destruct r as [pools'|code|p].
      * subst evs2. reflexivity.
      * destruct Hr2 as (oks & e & -> & He & Hoks).
        exists (binding_queries pr ++ oks), e.
        split_and!; [rewrite app_assoc; reflexivity|exact He|].
        apply Forall_app. split; [apply Hok|exact Hoks].
      * apply Forall_app. split; [apply Hok|exact Hr2].
    + intros [= <- <-]. exists evs1. split; assumption.
    + intros [= <- <-]. exists evs1. split; assumption.
Qed.

Lemma binding_queries_length bs :
  length (flat_map binding_queries bs) = (2 * length (filter has_pool bs))%nat.
Proof.
  induction bs as [|b bs IH]; [reflexivity|].
  simpl flat_map. rewrite length_app, IH, filter_cons. unfold binding_queries.
  destruct (decide (has_pool b)); simpl; lia.
Qed.

(** X1.  A run of the aggregation that completes has asked the router
    for the DHCP servers once and then, for each binding with a pool
    name and in their order, for the pool and for its used addresses,
    by that name: two queries per such binding, none for the others,
    nothing remembered from one binding to the next. *)
Theorem completed_run_queries js w w' pools :
  aggregate js w = (w', Ret pools) ->
  exists c res,
    routeros.query (client w) "/ip/dhcp-server/getall" serversQuery
      = (c, routeros.Ok res) /\
    queries w' = queries w ++ expected_queries (routeros.SubPairs res) /\
    length (expected_queries (routeros.SubPairs res)) = S (2 * length pools).
Proof.
  intros A. destruct (aggregate_ret _ _ _ _ A) as (c & res & Q & Hi & _ & _).
  rewrite (aggregate_run js w c _ Q) in A.
  destruct (forEach_log _ _ _ _ _ _ A) as (evs & Hq & ->).
  exists c, res. split_and!; [exact Q| |].
  - rewrite Hq. destruct js; simpl; rewrite <- app_assoc; reflexivity.
  - rewrite <- (length_map Interface pools), Hi. unfold eligible, expected_queries.
    rewrite length_map. simpl length. rewrite binding_queries_length. reflexivity.
Qed.

(** X2.  When the run exits, the query that failed is the last one
    the router was asked: every query before it succeeded and none
    follows it. *)
Theorem failed_query_is_last js w w' code :
  main js w = (w', Exit code) ->
  exists oks e,
    queries w' = queries w ++ oks ++ [e] /\
    q_ok e = false /\ Forall (fun e => q_ok e = true) oks.
Proof.
  rewrite main_run. destruct (aggregate js w) as [w1 r1] eqn:A.
  destruct r1 as [pools|code1|p]; [discriminate| |discriminate].
  intros [= <- <-].
  destruct (routeros.query (client w) "/ip/dhcp-server/getall" serversQuery)
    as [c r0] eqn:Q.
  rewrite (aggregate_run js w c r0 Q) in A. destruct r0 as [res|err].
  - destruct (forEach_log _ _ _ _ _ _ A) as (evs & Hq & oks & e & -> & He & Hoks).
    exists (servers_asked :: oks), e. split_and!; [|exact He|constructor; done].
    rewrite Hq. destruct js; simpl; rewrite <- app_assoc; reflexivity.
  - injection A as <- <-. eexists [], _. split_and!; [reflexivity|reflexivity|constructor].
Qed.

End Log.

Section Modes.
Context {api : routeros.API} {json : JSONString}.

Lemma binding_modes pr pools w1 w2 :
  same_router w1 w2 ->
  snd (binding true pr pools w1) = snd (binding false pr pools w2) /\
  same_router (fst (binding true pr pools w1)) (fst (binding false pr pools w2)).
Proof.
  intros [Hc Hq]. destruct (decide (has_pool pr)) as [Hp|Hp].
  2:{ rewrite !(binding_skip _ _ _ _ Hp). split; [reflexivity|split; assumption]. }
  destruct (routeros.query (client w1) "/ip/pool/print"
              (poolQuery (mapGet pr "address-pool"))) as [c1 r1] eqn:Q1.
  pose proof Q1 as Q1'. rewrite Hc in Q1'.
  rewrite (binding_run true pr pools w1 c1 r1 Hp Q1),
          (binding_run false pr pools w2 c1 r1 Hp Q1').
  unfold same_router.
  destruct r1 as [res|err]; [|simpl; rewrite Hq; done].
  destruct (replyRanges res ≫= poolSize) as [size|code|p];
    [|simpl; rewrite Hq; done|simpl; rewrite Hq; done].
  destruct (routeros.query c1 "/ip/pool/used/print" _) as [c2 r2].
  destruct r2 as [res2|err]; simpl; rewrite Hq; done.
Qed.

Lemma forEach_modes pairs : forall pools w1 w2,
  same_router w1 w2 ->
  snd (forEach pairs (binding true) pools w1)
    = snd (forEach pairs (binding false) pools w2) /\
  same_router (fst (forEach pairs (binding true) pools w1))
              (fst (forEach pairs (binding false) pools w2)).
Proof.
  induction pairs as [|pr pairs IH]; intros pools w1 w2 Hw; [split; [reflexivity|exact Hw]|].
  simpl forEach. rewrite !bind_run.
  destruct (binding_modes pr pools w1 w2 Hw) as [Hr Hs].
  destruct (binding true pr pools w1) as [w1' r1],
           (binding false pr pools w2) as [w2' r2].
  simpl in Hr, Hs. subst r2. destruct r1 as [pools1|code|p].
  - apply IH, Hs.
  - split; [reflexivity|exact Hs].
  - split; [reflexivity|exact Hs].
Qed.

(** X3.  The two output modes do the same work: for the same router
    state, the text-mode and the JSON-mode aggregation end the same
    way (the same records, the same exit, the same panic), leave the
    client in the same state and have asked the same queries; only
    what is written differs. *)
Theorem modes_agree w :
  snd (aggregate true w) = snd (aggregate false w) /\
  same_router (fst (aggregate true w)) (fst (aggregate false w)).
Proof.
  destruct (routeros.query (client w) "/ip/dhcp-server/getall" serversQuery)
    as [c r0] eqn:Q.
  rewrite !(aggregate_run _ w c r0 Q). destruct r0 as [res|err].
  - apply forEach_modes. split; reflexivity.
  - split; [reflexivity|split; reflexivity].
Qed.

(** X4.  In JSON mode the standard output is all or nothing: a run
    that ends normally has written the marshalled list of its records
    and nothing to the error stream, and a run that ends any other way
    (exit or panic) has written nothing to the standard output. *)
Theorem json_output_all_or_nothing w w' r :
  main true w = (w', r) ->
  match r with
  | Ret _ =>
      exists w1 pools,
        aggregate true w = (w1, Ret pools) /\
        stdout w' = stdout w +:+ marshal_pools pools /\
        stderr w' = stderr w /\ failed_queries w' = failed_queries w
  | _ => stdout w' = stdout w
  end.
Proof.
  rewrite main_run. destruct (aggregate true w) as [w1 r1] eqn:A.
  destruct (aggregate_inv _ _ _ _ A) as (c & r0 & Q & Hr0).
  destruct r0 as [res|err].
  - destruct Hr0 as (recs & pre & post & _ & _ & Ho & Hr). rewrite append_nil_r in Ho.
    destruct r1 as [pools|code|p]; intros [= <- <-].
    + destruct Hr as (_ & _ & He & Hf). exists w1, pools.
      split_and!; [reflexivity|simpl; rewrite Ho; reflexivity|exact He|exact Hf].
    + exact Ho.
    + exact Ho.
  - destruct Hr0 as (-> & Ho & _). intros [= <- <-]. exact Ho.
Qed.

End Modes.

(** ** When the capacity of a range field exists *)

Lemma rangeLoop_ret ps : forall ranges rs,
  rangeLoop ps ranges = Ret rs ->
  Forall (fun p => (2 <= length (strings.Split p "-"))%nat) ps /\
  rs = ranges ++ map piece_range ps.
Proof.
  induction ps as [|p ps IH]; intros ranges rs.
  - intros [= <-]. split; [constructor|rewrite app_nil_r; reflexivity].
  - rewrite rangeLoop_cons.
    destruct (strings.Split p "-") as [|lo [|hi rest]] eqn:E; [discriminate|discriminate|].
    intros L. destruct (IH _ _ L) as [Hps ->].
    split; [constructor; [rewrite E; simpl; lia|exact Hps]|].
    change (map piece_range (p :: ps)) with (piece_range p :: map piece_range ps).
    rewrite (piece_range_shaped p lo hi rest E), <- app_assoc. reflexivity.
Qed.

Lemma rangeLoop_panic ps : forall ranges p,
  rangeLoop ps ranges = Panic p -> p = IndexOutOfRange 1 1.
Proof.
  induction ps as [|q ps IH]; intros ranges p; [discriminate|].
  rewrite rangeLoop_cons. pose proof (Split_length q "-") as Hl.
  destruct (strings.Split q "-") as [|lo [|hi rest]]; [simpl in Hl; lia| |].
  - intros [= <-]. reflexivity.
  - apply IH.
Qed.

Lemma sizeLoop_cases l pool size :
  (quads l /\ exists size', sizeLoop (l :: pool) size = sizeLoop pool size') \/
  (exists n, (n < 4)%nat /\ sizeLoop (l :: pool) size = Panic (IndexOutOfRange 3 n)).
Proof.
  destruct (le_lt_dec 4 (length (strings.Split (Min l) "."))) as [Hmin|Hmin].
  - destruct (le_lt_dec 4 (length (strings.Split (Max l) "."))) as [Hmax|Hmax].
    + left. split; [split; assumption|]. eexists. apply sizeLoop_step; assumption.
    + right. exists (length (strings.Split (Max l) ".")). split; [exact Hmax|].
      rewrite sizeLoop_cons, (index_nth (strings.Split (Min l) ".") 3) by lia.
      simpl. rewrite index_short by lia. reflexivity.
  - right. exists (length (strings.Split (Min l) ".")). split; [exact Hmin|].
    rewrite sizeLoop_cons, (index_short (strings.Split (Min l) ".") 3) by lia.
    reflexivity.
Qed.

Lemma sizeLoop_ret pool : forall size n,
  sizeLoop pool size = Ret n -> Forall quads pool.
Proof.
  induction pool as [|l pool IH]; intros size n; [constructor|].
  destruct (sizeLoop_cases l pool size) as [[Hq [size' E]]|(k & _ & E)];
    rewrite E; [|discriminate].
  intros L. constructor; [exact Hq|exact (IH _ _ L)].
Qed.

Lemma sizeLoop_panic pool : forall size p,
  sizeLoop pool size = Panic p ->
  exists n, (n < 4)%nat /\ p = IndexOutOfRange 3 n.
Proof.
  induction pool as [|l pool IH]; intros size p; [discriminate|].
  destruct (sizeLoop_cases l pool size) as [[_ [size' E]]|(k & Hk & E)]; rewrite E.
  - apply IH.
  - intros [= <-]. exists k. split; [exact Hk|reflexivity].
Qed.

Lemma fieldCapacity_ret_shaped field n :
  fieldCapacity field = Ret n ->
  field = "" \/ Forall piece_shaped (strings.Split field ",").
Proof.
  unfold fieldCapacity, fieldRanges.
  destruct (decide (field = "")) as [E|Hne]; [left; exact E|]. right.
  destruct (rangeLoop (strings.Split field ",") []) as [rs|code|p] eqn:L;
    [|discriminate|discriminate].
  destruct (rangeLoop_ret _ _ _ L) as [Hd ->]. simpl in H.
  apply sizeLoop_ret in H. rewrite Forall_map in H.
  apply Forall_forall. intros p Hin.
  pose proof (proj1 (Forall_forall _ _) Hd p Hin) as Hp.
  pose proof (proj1 (Forall_forall _ _) H p Hin) as Hq.
  cbv beta in Hp. unfold compose, quads in Hq.
  destruct (strings.Split p "-") as [|lo [|hi rest]] eqn:E;
    [simpl in Hp; lia|simpl in Hp; lia|].
  rewrite (piece_range_shaped p lo hi rest E) in Hq. destruct Hq as [Hlo Hhi].
  exists lo, hi, rest. split_and!; [exact E|exact Hlo|exact Hhi].
Qed.

(** X5.  The capacity of a range field exists exactly when the field
    is empty or every comma-separated piece has a dash and four dot
    components on each of its first two sides.  Otherwise the program
    panics, and only in two ways: index 1 of a one-element slice (no
    dash) or index 3 of a slice shorter than four (not a dotted
    quad); the pure part never exits. *)
Theorem capacity_exists_iff_shaped field :
  ((exists n, fieldCapacity field = Ret n) <->
   (field = "" \/ Forall piece_shaped (strings.Split field ","))) /\
  (forall p, fieldCapacity field = Panic p ->
     p = IndexOutOfRange 1 1 \/
     exists n, (n < 4)%nat /\ p = IndexOutOfRange 3 n) /\
  (forall code, fieldCapacity field <> Exit code).
Proof.
  split_and!.
  - split.
    + intros [n Hn]. exact (fieldCapacity_ret_shaped _ _ Hn).
    + intros [->|Hs]; [exists 0; reflexivity|].
      destruct (decide (field = "")) as [->|Hne]; [exists 0; reflexivity|].
      eexists. apply fieldCapacity_shaped; assumption.
  - intros p. unfold fieldCapacity, fieldRanges.
    destruct (decide (field = "")); [discriminate|].
    destruct (rangeLoop (strings.Split field ",") []) as [rs|code|q] eqn:L; simpl.
    + intros Hp. right. exact (sizeLoop_panic _ _ _ Hp).
    + discriminate.
    + intros [= <-]. left. exact (rangeLoop_panic _ _ _ L).
  - intros code. unfold fieldCapacity, fieldRanges.
    destruct (decide (field = "")); [discriminate|].
    destruct (rangeLoop (strings.Split field ",") []) as [rs|c|q] eqn:L; simpl.
    + apply sizeLoop_no_exit.
    + destruct (rangeLoop_no_exit _ _ _ L).
    + discriminate.
Qed.

Lemma pieces_sum_app ps qs : pieces_sum (ps ++ qs) = pieces_sum ps + pieces_sum qs.
Proof. induction ps as [|p ps IH]; simpl; [reflexivity|rewrite IH; lia]. Qed.

(** X6.  Capacities add up: joining two non-empty range fields with a
    comma gives the sum of their capacities, in Go's [int].  (An empty
    field on either side would leave an empty piece, which panics.) *)
Theorem capacity_of_joined_fields f1 f2 c1 c2 :
  f1 <> "" -> f2 <> "" ->
  fieldCapacity f1 = Ret c1 ->
  fieldCapacity f2 = Ret c2 ->
  fieldCapacity (f1 +:+ "," +:+ f2) = Ret (GoInt.wrap (c1 + c2)).
Proof.
  intros H1 H2 E1 E2.
  destruct (fieldCapacity_ret_shaped _ _ E1) as [->|S1]; [congruence|].
  destruct (fieldCapacity_ret_shaped _ _ E2) as [->|S2]; [congruence|].
  rewrite (fieldCapacity_shaped _ H1 S1) in E1.
  rewrite (fieldCapacity_shaped _ H2 S2) in E2.
  injection E1 as <-. injection E2 as <-.
  rewrite fieldCapacity_shaped.
  - rewrite Split_app_all, pieces_sum_app, wrap_add_l, wrap_add_r. reflexivity.
  - destruct f1; [congruence|discriminate].
  - rewrite Split_app_all. apply Forall_app. split; assumption.
Qed.

(** ** How a run can end *)

Lemma fieldCapacity_panic field p :
  fieldCapacity field = Panic p ->
  p = IndexOutOfRange 1 1 \/ exists n, (n < 4)%nat /\ p = IndexOutOfRange 3 n.
Proof.
  unfold fieldCapacity, fieldRanges.
  destruct (decide (field = "")); [discriminate|].
  destruct (rangeLoop (strings.Split field ",") []) as [rs|code|q] eqn:L; simpl.
  - intros Hp. right. exact (sizeLoop_panic _ _ _ Hp).
  - discriminate.
  - intros [= <-]. left. exact (rangeLoop_panic _ _ _ L).
Qed.

Section Ends.
Context {api : routeros.API} {json : JSONString}.

Lemma binding_panic js pr pools w w' p :
  binding js pr pools w = (w', Panic p) ->
  p = IndexOutOfRange 1 1 \/ exists n, (n < 4)%nat /\ p = IndexOutOfRange 3 n.
Proof.
  destruct (decide (has_pool pr)) as [Hp|Hp];
    [|rewrite (binding_skip _ _ _ _ Hp); discriminate].
  destruct (routeros.query (client w) "/ip/pool/print"
              (poolQuery (mapGet pr "address-pool"))) as [c1 r1] eqn:Q1.
  rewrite (binding_run js pr pools w c1 r1 Hp Q1).
  destruct r1 as [res|err]; [|discriminate].
  destruct (replyRanges res ≫= poolSize) as [size|code|q] eqn:E.
  - destruct (routeros.query c1 "/ip/pool/used/print" _) as [c2 [res2|err]]; discriminate.
  - discriminate.
  - intros [= _ <-]. unfold replyRanges in E.
    destruct (routeros.SubPairs res) as [|sp rest]; [discriminate|].
    exact (fieldCapacity_panic _ _ E).
Qed.

Lemma forEach_panic js pairs : forall pools w w' p,
  forEach pairs (binding js) pools w = (w', Panic p) ->
  p = IndexOutOfRange 1 1 \/ exists n, (n < 4)%nat /\ p = IndexOutOfRange 3 n.
Proof.
  induction pairs as [|pr pairs IH]; intros pools w w' p; [discriminate|].
  simpl forEach. rewrite bind_run.
  destruct (binding js pr pools w) as [w1 [pools1|code|q]] eqn:B.
  - apply IH.
  - discriminate.
  - intros [= _ <-]. exact (binding_panic _ _ _ _ _ _ B).
Qed.

(** How [main] can end once connected, and what an exit leaves. *)
Lemma main_ends js w w' r :
  main js w = (w', r) ->
  match r with
  | Ret _ => True
  | Exit code =>
      code = 1 /\ (js = true -> stdout w' = stdout w) /\
      exists d, diagnostic js d /\ stderr w' = stderr w +:+ d
  | Panic p =>
      p = IndexOutOfRange 1 1 \/ exists n, (n < 4)%nat /\ p = IndexOutOfRange 3 n
  end.
Proof.
  rewrite main_run. destruct (aggregate js w) as [w1 r1] eqn:A.
  destruct r1 as [pools|code|p]; intros [= <- <-]; [exact I| |].
  - destruct (aggregate_inv _ _ _ _ A) as (c & r0 & Q & Hr0).
    destruct r0 as [res|err].
    + destruct Hr0 as (recs & pre & post & _ & _ & Ho & -> & _ & Hd & _).
      split_and!; [reflexivity| |exact Hd].
      intros ->. rewrite Ho. apply append_nil_r.
    + destruct Hr0 as ([= ->] & Ho & He & _).
      split_and!; [reflexivity|intros _; exact Ho|].
      exists (servers_diag js err). split; [constructor|exact He].
  - destruct (routeros.query (client w) "/ip/dhcp-server/getall" serversQuery)
      as [c r0] eqn:Q.
    rewrite (aggregate_run js w c r0 Q) in A.
    destruct r0 as [res|err]; [|discriminate].
    exact (forEach_panic _ _ _ _ _ _ A).
Qed.

(** [main] always asks the router at least once. *)
Lemma main_asks js w : queries (fst (main js w)) <> queries w.
Proof.
  assert (G : forall w1 : World, (exists e evs, queries w1 = queries w ++ e :: evs) ->
                                 queries w1 <> queries w).
  { intros w1 (e & evs & E) E'. rewrite E' in E.
    apply (f_equal length) in E. rewrite length_app in E. simpl in E. lia. }
  rewrite main_run. destruct (aggregate js w) as [w1 r1] eqn:A.
  assert (G1 : exists e evs, queries w1 = queries w ++ e :: evs).
  { destruct (routeros.query (client w) "/ip/dhcp-server/getall" serversQuery)
      as [c r0] eqn:Q.
    rewrite (aggregate_run js w c r0 Q) in A. destruct r0 as [res|err].
    - destruct (forEach_log _ _ _ _ _ _ A) as (evs & Hq & _).
      eexists _, evs. rewrite Hq. destruct js; simpl; rewrite <- app_assoc; reflexivity.
    - injection A as <- _. eexists _, []. reflexivity. }
  destruct r1 as [pools|code|p]; simpl; [destruct js|..]; apply G; exact G1.
Qed.

(** X7.  One turn of the loop, end to end: for a binding with a pool
    whose first record carries a valid range field and whose usage
    query is answered, the record appended has the binding's
    interface, the number of reply records as [Used] and the sum of
    the last-octet differences as [Size]; text mode prints its line,
    JSON mode prints nothing yet. *)
Theorem binding_makes_record js pr pools w c1 sp rest c2 res2 segs :
  has_pool pr ->
  routeros.query (client w) "/ip/pool/print" (poolQuery (mapGet pr "address-pool"))
    = (c1, routeros.Ok {| routeros.SubPairs := sp :: rest |}) ->
  mapGet sp "ranges" = render_field segs ->
  Forall segment_ok segs ->
  GoInt.in_range (segments_sum segs) ->
  routeros.query c1 "/ip/pool/used/print" (usedQuery (mapGet pr "address-pool"))
    = (c2, routeros.Ok res2) ->
  let p := {| Interface := mapGet pr "interface";
              Used := Z.of_nat (length (routeros.SubPairs res2));
              Size := segments_sum segs |} in
  exists w',
    binding js pr pools w = (w', Ret (pools ++ [p])) /\
    client w' = c2 /\ stderr w' = stderr w /\
    stdout w' = stdout w +:+ (if js then "" else text_line p).
Proof.
  intros Hp Q1 Hf Hs Hr Q2 p.
  rewrite (binding_run js pr pools w _ _ Hp Q1).
  unfold replyRanges. simpl routeros.SubPairs. cbv iota. rewrite Hf.
  change (fieldRanges (render_field segs) ≫= poolSize)
    with (fieldCapacity (render_field segs)).
  rewrite (fieldCapacity_render segs Hs Hr), Q2.
  eexists. split; [reflexivity|].
  destruct js; simpl; rewrite ?append_nil_r; split_and!; reflexivity.
Qed.

End Ends.

(** ** The whole process *)

Section Whole.
Context {api : routeros.API} {json : JSONString} {dial : Dialer}.

Lemma early_bind_run {A B} (m : Early A) (f : A -> Early B) e :
  (m ≫= f) e =
    match m e with
    | (e', Ret a) => f a e'
    | (e', Exit code) => (e', Exit code)
    | (e', Panic p) => (e', Panic p)
    end.
Proof. reflexivity. Qed.

Lemma usage_run prog defaults e :
  usage prog defaults e = (e +:+ usage_text prog defaults, Exit 2).
Proof.
  unfold usage, usage_text, mbind, Early_bind, early_stderr, early_Exit.
  cbv beta iota. rewrite !append_assoc. reflexivity.
Qed.

(** The connection, case by case. *)
Lemma connect_run js port prog defaults args username password e :
  connect js port prog defaults args username password e =
    if decide (length args <> 1%nat)
    then (e +:+ usage_text prog defaults, Exit 2)
    else if decide (username = "")
    then if js then (e +:+ marshal_jsError "MT_USERNAME is empty or not set", Exit 1)
         else (e +:+ ("Error: MT_USERNAME is empty or not set" +:+ NL) +:+
               usage_text prog defaults, Exit 2)
    else
      match routeros_New (nth 0 args "" +:+ ":" +:+ strconv.FormatInt port) with
      | inr err =>
          (e +:+ (if js then marshal_jsError "Invalid address for router"
                  else "Invalid address for router: " +:+ err +:+ NL), Exit 1)
      | inl r0 =>
          match routeros_Connect r0 username password with
          | (r, Some err) =>
              (e +:+ (if js then marshal_jsError "Error connecting to router"
                      else "Error connecting to router: " +:+ err +:+ NL), Exit 1)
          | (r, None) => (e, Ret r)
          end
      end.
Proof.
  unfold connect. rewrite early_bind_run.
  destruct (decide (length args <> 1%nat)) as [Ha|Ha]; [rewrite usage_run; reflexivity|].
  change ((mret tt : Early unit) e) with (e, Ret tt). cbv iota. rewrite early_bind_run.
  destruct (decide (username = "")) as [Hu|Hu].
  - rewrite early_bind_run. destruct js; [reflexivity|].
    change ((mret tt : Early unit) e) with (e, Ret tt). cbv iota.
    rewrite early_bind_run. unfold early_stderr at 1. rewrite usage_run.
    rewrite append_assoc. reflexivity.
  - change ((mret tt : Early unit) e) with (e, Ret tt). cbv iota.
    destruct (routeros_New _) as [r0|err].
    + destruct (routeros_Connect r0 username password) as [r [err|]]; [|reflexivity].
      destruct js; reflexivity.
    + destruct js; reflexivity.
Qed.

Lemma connected_iff port args username password r js prog defaults e :
  connect js port prog defaults args username password e = (e, Ret r) <->
  connected port args username password r.
Proof.
  rewrite connect_run. unfold connected. split.
  - destruct (decide (length args <> 1%nat)) as [Ha|Ha]; [discriminate|].
    destruct (decide (username = "")) as [Hu|Hu]; [destruct js; discriminate|].
    destruct args as [|host [|]]; simpl in Ha; [lia| |lia].
    simpl nth. destruct (routeros_New _) as [r0|err] eqn:N; [|discriminate].
    destruct (routeros_Connect r0 username password) as [r' [err|]] eqn:C; [discriminate|].
    intros [= <-]. exists host, r0. split_and!; done.
  - intros (host & r0 & -> & Hu & N & C).
    destruct (decide (length [host] <> 1%nat)) as [Ha|_]; [simpl in Ha; lia|].
    destruct (decide (username = "")) as [Hu'|_]; [congruence|].
    simpl nth. rewrite N, C. reflexivity.
Qed.
End Whole.

Section Process.
Context {api : routeros.API} {json : JSONString} {dial : Dialer}.

Lemma connect_ret_stderr js port prog defaults args username password e e' r :
  connect js port prog defaults args username password e = (e', Ret r) -> e' = e.
Proof.
  rewrite connect_run.
  repeat match goal with
         | |- context [decide ?P] => destruct (decide P)
         | |- context [routeros_New ?a] => destruct (routeros_New a)
         | |- context [routeros_Connect ?a ?b ?c] =>
             destruct (routeros_Connect a b c) as [? [?|]]
         | |- context [if js then _ else _] => destruct js
         end; congruence.
Qed.

Lemma diagnostic_json d : diagnostic true d -> exists msg, d = marshal_jsError msg.
Proof. intros [err|poolName err|poolName err]; eexists; reflexivity. Qed.


(** X9.  In JSON mode an exit with status 1 is machine-readable
    whichever step failed (empty user name, bad address, failed login
    or failed query): the standard output is empty and the error
    stream holds one JSON error object and nothing else. *)
Theorem json_exit_is_one_object port prog defaults args username password :
  let o := process true port prog defaults args username password in
  out_status o = Exit 1 ->
  out_stdout o = "" /\ exists msg, out_stderr o = marshal_jsError msg.
Proof.
  unfold process. rewrite connect_run.
  destruct (decide (length args <> 1%nat)) as [Ha|Ha]; [discriminate|].
  destruct (decide (username = "")) as [Hu|Hu].
  { simpl. intros _. split; [reflexivity|eexists; reflexivity]. }
  destruct (routeros_New _) as [r0|err].
  2:{ simpl. intros _. split; [reflexivity|eexists; reflexivity]. }
  destruct (routeros_Connect r0 username password) as [r [err|]].
  { simpl. intros _. split; [reflexivity|eexists; reflexivity]. }
  destruct (main true _) as [w status] eqn:Hm. simpl. intros ->.
  destruct (main_ends _ _ _ _ Hm) as (_ & Ho & d & Hd & He).
  split; [exact (Ho eq_refl)|].
  destruct (diagnostic_json d Hd) as [msg ->]. exists msg. exact He.
Qed.

(** X10.  The router is asked something exactly when the connection
    was made: one argument, a non-empty user name, the address
    [host:port] accepted and the login accepted.  The password is
    passed on as it is, empty or not. *)
Theorem queried_iff_connected js port prog defaults args username password :
  out_queries (process js port prog defaults args username password) <> [] <->
  exists r, connected port args username password r.
Proof.
  unfold process.
  destruct (connect js port prog defaults args username password "")
    as [e [r| |]] eqn:C.
  - pose proof (connect_ret_stderr _ _ _ _ _ _ _ _ _ _ C) as ->.
    split; [intros _; exists r; exact (proj1 (connected_iff _ _ _ _ _ _ _ _ _) C)|].
    intros _.
    pose proof (main_asks js {| client := r; stdout := ""; stderr := "";
                                queries := [] |}) as Hq.
    destruct (main js _) as [w status]. exact Hq.
  - split; [intros Hq; destruct (Hq eq_refl)|].
    intros [r Hr]. apply (connected_iff _ _ _ _ _ js prog defaults "") in Hr. congruence.
  - split; [intros Hq; destruct (Hq eq_refl)|].
    intros [r Hr]. apply (connected_iff _ _ _ _ _ js prog defaults "") in Hr. congruence.
Qed.

(** X11.  The process ends in one of five ways and no other: a normal
    return, exit status 1, exit status 2, or one of the two index
    panics of the range code (index 1 of a one-element slice, index 3
    of a slice shorter than four). *)
Theorem process_ends js port prog defaults args username password :
  let st := out_status (process js port prog defaults args username password) in
  st = Ret tt \/ st = Exit 1 \/ st = Exit 2 \/
  st = Panic (IndexOutOfRange 1 1) \/
  exists n, (n < 4)%nat /\ st = Panic (IndexOutOfRange 3 n).
Proof.
  unfold process. rewrite connect_run.
  repeat match goal with
         | |- context [decide ?P] => destruct (decide P)
         | |- context [routeros_New ?a] => destruct (routeros_New a)
         | |- context [routeros_Connect ?a ?b ?c] =>
             destruct (routeros_Connect a b c) as [? [?|]]
         end; try (destruct js; simpl; tauto).
  destruct (main js _) as [w status] eqn:Hm. simpl.
  pose proof (main_ends _ _ _ _ Hm) as He.
  destruct status as [[]|code|p].
  - left. reflexivity.
  - destruct He as [-> _]. right. left. reflexivity.
  - destruct He as [->|(k & Hk & ->)].
    + right. right. right. left. reflexivity.
    + right. right. right. right. exists k. split; [exact Hk|reflexivity].
Qed.

End Process.

(** ** Concrete runs of the further properties *)

Lemma completed_run_queries_witness :
  let out := aggregate (api := scripted) (json := quote_only) true (boot script_office) in
  snd out = Ret [{| Interface := "ether1"; Used := 3; Size := 10 |}] /\
  queries (fst out)
    = [servers_asked; pool_asked "office-pool"; used_asked "office-pool"].
Proof.
  intros out.
  assert (A : out = (fst out, Ret [{| Interface := "ether1"; Used := 3; Size := 10 |}]))
    by (vm_compute; reflexivity).
  destruct (completed_run_queries (api := scripted) (json := quote_only) true
              (boot script_office) (fst out) _ A) as (c & res & Q & Hq & _).
  split; [rewrite A; reflexivity|].
  injection Q as _ <-. rewrite Hq. vm_compute. reflexivity.
Defined.

Lemma failed_query_is_last_witness :
  let out := main (api := scripted) (json := quote_only) false (boot script_fail_second) in
  snd out = Exit 1 /\
  exists oks e, queries (fst out) = oks ++ [e] /\ q_ok e = false /\
                Forall (fun e => q_ok e = true) oks.
Proof.
  intros out.
  assert (A : out = (fst out, Exit 1)) by (vm_compute; reflexivity).
  destruct (failed_query_is_last (api := scripted) (json := quote_only) false
              (boot script_fail_second) (fst out) 1 A) as (oks & e & Hq & He & Hoks).
  split; [rewrite A; reflexivity|]. exists oks, e. split_and!; assumption.
Defined.

Lemma json_output_all_or_nothing_witness :
  let out := main (api := scripted) (json := quote_only) true (boot script_office) in
  snd out = Ret tt /\
  stdout (fst out)
    = marshal_pools (json := quote_only)
        [{| Interface := "ether1"; Used := 3; Size := 10 |}].
Proof.
  intros out.
  assert (A : out = (fst out, Ret tt)) by (vm_compute; reflexivity).
  pose proof (json_output_all_or_nothing (api := scripted) (json := quote_only)
                (boot script_office) (fst out) (Ret tt) A) as (w1 & pools & Ha & Ho & _).
  split; [rewrite A; reflexivity|].
  rewrite Ho. vm_compute in Ha. injection Ha as _ <-. reflexivity.
Defined.

Lemma capacity_exists_iff_shaped_witness :
  exists n, fieldCapacity "10.0.0.10-10.0.0.20,10.0.0.30-10.0.0.40" = Ret n.
Proof.
  apply (proj2 (proj1 (capacity_exists_iff_shaped
                         "10.0.0.10-10.0.0.20,10.0.0.30-10.0.0.40"))).
  right.
  assert (E : strings.Split "10.0.0.10-10.0.0.20,10.0.0.30-10.0.0.40" ","
              = ["10.0.0.10-10.0.0.20"; "10.0.0.30-10.0.0.40"])
    by (vm_compute; reflexivity).
  rewrite E. constructor; [|constructor; [|constructor]].
  - exists "10.0.0.10", "10.0.0.20", [].
    split_and!; [vm_compute; reflexivity|vm_compute; lia|vm_compute; lia].
  - exists "10.0.0.30", "10.0.0.40", [].
    split_and!; [vm_compute; reflexivity|vm_compute; lia|vm_compute; lia].
Defined.

Lemma capacity_of_joined_fields_witness :
  fieldCapacity ("10.0.0.10-10.0.0.20" +:+ "," +:+ "10.0.0.30-10.0.0.45") = Ret 25.
Proof.
  apply (capacity_of_joined_fields "10.0.0.10-10.0.0.20" "10.0.0.30-10.0.0.45" 10 15);
    [discriminate|discriminate|reflexivity|reflexivity].
Defined.

Lemma binding_makes_record_witness :
  exists w',
    binding (api := scripted) (json := quote_only) false ether1_office []
      (boot (tail script_office))
    = (w', Ret [{| Interface := "ether1"; Used := 3; Size := 10 |}]) /\
    stdout w' = "ether1" +:+ TAB +:+ "           3" +:+ TAB +:+ "   7" +:+ NL.
Proof.
  destruct (binding_makes_record (api := scripted) (json := quote_only) false
              ether1_office [] (boot (tail script_office))
              (tail (tail script_office) : @routeros.Client scripted)
              (record [("ranges", "10.0.0.10-10.0.0.20")])
              [record [("ranges", "10.0.0.100-10.0.0.200")]]
              ([] : @routeros.Client scripted)
              {| routeros.SubPairs :=
                   [record [("address", "10.0.0.11")]; record [("address", "10.0.0.12")];
                    record [("address", "10.0.0.12")]] |}
              [range_10_20])
    as (w' & Hb & _ & _ & Ho).
  - unfold has_pool. vm_compute. discriminate.
  - reflexivity.
  - vm_compute. reflexivity.
  - octets.
  - in_int.
  - reflexivity.
  - exists w'. split; [exact Hb|]. rewrite Ho. vm_compute. reflexivity.
Defined.


Lemma json_exit_is_one_object_witness :
  let o := process (api := scripted) (json := quote_only) (dial := scripted_dial [])
             true 8728 "mt-dhcpstat" "" ["10.0.0.1"] "admin" "wrong" in
  out_status o = Exit 1 /\ out_stdout o = "" /\
  out_stderr o = marshal_jsError (json := quote_only) "Error connecting to router".
Proof.
  intros o.
  assert (Hs : out_status o = Exit 1) by (vm_compute; reflexivity).
  destruct (json_exit_is_one_object (api := scripted) (json := quote_only)
              (dial := scripted_dial [])
              8728 "mt-dhcpstat" "" ["10.0.0.1"] "admin" "wrong" Hs) as [Ho _].
  split_and!; [exact Hs|exact Ho|vm_compute; reflexivity].
Defined.

Lemma queried_iff_connected_witness :
  out_queries (process (api := scripted) (json := quote_only)
                 (dial := scripted_dial script_office)
                 true 8728 "mt-dhcpstat" "" ["10.0.0.1"] "admin" "")
    <> [].
Proof.
  apply (proj2 (queried_iff_connected (api := scripted) (json := quote_only)
                  (dial := scripted_dial script_office)
                  true 8728 "mt-dhcpstat" "" ["10.0.0.1"] "admin" "")).
  exists (script_office : @routeros.Client scripted).
  exists "10.0.0.1", (script_office : @routeros.Client scripted).
  split_and!; [reflexivity|discriminate|vm_compute; reflexivity|vm_compute; reflexivity].
Defined.
